(** * Selection dispatch of the select tools (bokehjs)

    A shallow embedding of
    [bokehjs/src/lib/models/tools/gestures/select_tool.ts]
    ([SelectToolView] and [SelectTool]) together with the properties of
    its renderer grouping, mode resolution, selection dispatch, clearing
    and geometry conversion.

    Conventions of the embedding:
    - a JS object used as a string-keyed dictionary is a list of its own
      properties in creation order ([Js.Object]); [Js.for_in_keys] gives the
      order in which [for (const id in o)] visits them;
    - the dictionary of renderer views, which is built elsewhere and only
      read here, is given by what the reads answer, as a [gmap];
    - methods with effects are computations in [Eff]: they thread a
      [World] (selection store, listeners of the clear signal, number of
      render requests, log of the calls made to collaborators) and may
      throw;
    - collaborators that are not part of this file (scales, the hit test
      of a selection manager, key codes) are parameters of the
      development. *)

From Stdlib Require Import Ascii NArith ZArith.
From stdpp Require Import base option list strings gmap.

Local Open Scope string_scope.
Local Open Scope list_scope.

(** ** JS objects used as dictionaries *)

Module Js.

(** Own properties of an object literal, in creation order.  Besides
    them the object has the properties that every object literal
    inherits from [Object.prototype]. *)
Definition Object (V : Type) : Type := list (string * V).

(** The names of the properties of [Object.prototype]: those of the
    language standard and of its annex for web browsers.  None of them
    is enumerable, and none of the members has a [push] method. *)
Definition object_prototype_keys : list string :=
  [ "constructor"; "hasOwnProperty"; "isPrototypeOf"; "propertyIsEnumerable";
    "toLocaleString"; "toString"; "valueOf";
    "__proto__"; "__defineGetter__"; "__defineSetter__";
    "__lookupGetter__"; "__lookupSetter__" ].

(** [k] names a property that an object literal inherits. *)
Definition inherited (k : string) : bool :=
  bool_decide (k ∈ object_prototype_keys).

(** [o.hasOwnProperty(k)] *)
Definition has_own {V} (k : string) (o : Object V) : bool :=
  bool_decide (k ∈ o.*1).

(** [k in o]: [k] is an own property of [o] or one that [o] inherits. *)
Definition has {V} (k : string) (o : Object V) : bool :=
  has_own k o || inherited k.

(** [o[k]] for an own property.  [None] when [k] is not an own property
    of [o]: the read then gives [undefined] or, for a name of
    [Object.prototype], the inherited member; neither is an array. *)
Fixpoint get {V} (k : string) (o : Object V) : option V :=
  match o with
  | [] => None
  | (k', v) :: o' => if decide (k' = k) then Some v else get k o'
  end.

(** [o[k] = v], for a key that [o] does not inherit: an existing
    property keeps its place, a new one is created last. *)
Fixpoint set {V} (k : string) (v : V) (o : Object V) : Object V :=
  match o with
  | [] => [(k, v)]
  | (k', v') :: o' =>
      if decide (k' = k) then (k', v) :: o' else (k', v') :: set k v o'
  end.

Definition digit (c : ascii) : option N :=
  let n := N_of_ascii c in
  if ((48 <=? n) && (n <=? 57))%N then Some (n - 48)%N else None.

Fixpoint digits (s : string) (acc : N) : option N :=
  match s with
  | EmptyString => Some acc
  | String c s' =>
      match digit c with
      | Some d => digits s' (10 * acc + d)%N
      | None => None
      end
  end.

(** A property key is an array index when it is the canonical decimal
    spelling of an integer below [2^32 - 1]. *)
Definition array_index (k : string) : option N :=
  match k with
  | EmptyString => None
  | String c rest =>
      if bool_decide (c = "0"%char) && negb (bool_decide (rest = EmptyString))
      then None
      else match digits k 0 with
           | Some i => if (i <? 2 ^ 32 - 1)%N then Some i else None
           | None => None
           end
  end.

(** Insertion of an indexed key into a list sorted by index. *)
Fixpoint insert_index (e : N * string) (l : list (N * string)) : list (N * string) :=
  match l with
  | [] => [e]
  | e' :: l' =>
      if (e.1 <=? e'.1)%N then e :: e' :: l' else e' :: insert_index e l'
  end.

Definition sort_index (l : list (N * string)) : list (N * string) :=
  foldr insert_index [] l.

Definition indexed (k : string) : option (N * string) :=
  match array_index k with
  | Some i => Some (i, k)
  | None => None
  end.

Definition is_named (k : string) : bool :=
  match array_index k with Some _ => false | None => true end.

(** Enumeration order of the own keys: array indices in ascending
    numeric order, then the other keys in creation order. *)
Definition own_keys (ks : list string) : list string :=
  (sort_index (omap indexed ks)).*2 ++ List.filter is_named ks.

(** The keys visited by [for (const k in o)]. *)
Definition for_in_keys {V} (o : Object V) : list string := own_keys o.*1.

End Js.

(** ** Renderers and data sources *)

(** Modelled from the spec: [SelectionManager], the selection-state
    owner of a data source, is not part of the sources.  The owner is
    per data source and is reached through any renderer of that source;
    selection state is one store keyed by data-source identity, and a
    manager is the key of its source in that store. *)
Record SelectionManager := { source : string }.

Module DataSource.
Record t := { id : string }.
End DataSource.

Module GlyphRenderer.
Record t := { id : string; data_source : DataSource.t }.
End GlyphRenderer.

Module GraphRenderer.
Record t := { id : string; node_renderer : GlyphRenderer.t }.
End GraphRenderer.

(** [DataRenderer] is an abstract class; the tool tells glyph and graph
    renderers apart with [instanceof] and skips every other kind. *)
Inductive DataRenderer :=
| Glyph (r : GlyphRenderer.t)
| Graph (r : GraphRenderer.t)
| OtherRenderer (id : string) (selection_manager : SelectionManager).

Module Renderer.

(** [r.id] *)
Definition id (r : DataRenderer) : string :=
  match r with
  | Glyph g => GlyphRenderer.id g
  | Graph g => GraphRenderer.id g
  | OtherRenderer i _ => i
  end.

(** The identity the grouping loop resolves for [r], if any:
    lines 35-41 of the source. *)
Definition source_id (r : DataRenderer) : option string :=
  match r with
  | Glyph g => Some (DataSource.id (GlyphRenderer.data_source g))
  | Graph g =>
      Some (DataSource.id (GlyphRenderer.data_source (GraphRenderer.node_renderer g)))
  | OtherRenderer _ _ => None
  end.

(** Modelled from the spec: [r.get_selection_manager()], a method
    declared outside the sources.  A glyph renderer answers with the
    owner of its data source, a graph renderer with the owner of its
    node renderer's data source; another kind of renderer carries its
    owner. *)
Definition get_selection_manager (r : DataRenderer) : SelectionManager :=
  match r with
  | Glyph g => {| source := DataSource.id (GlyphRenderer.data_source g) |}
  | Graph g =>
      {| source :=
           DataSource.id (GlyphRenderer.data_source (GraphRenderer.node_renderer g)) |}
  | OtherRenderer _ sm => sm
  end.

End Renderer.

(** One turn of the loop of [_computed_renderers_by_data_source]
    (lines 34-47).  [None] stands for the [TypeError] of calling [push]
    on what is not an array: when [source_id] names a property of
    [Object.prototype] the test of line 43 finds it in the object, no
    array is created, and line 46 reads the inherited member. *)
Definition group_step (renderers_by_source : Js.Object (list DataRenderer))
    (r : DataRenderer) : option (Js.Object (list DataRenderer)) :=
  match Renderer.source_id r with
  | None => Some renderers_by_source
  | Some source_id =>
      let renderers_by_source :=
        if negb (Js.has source_id renderers_by_source)
        then Js.set source_id [] renderers_by_source
        else renderers_by_source in
      match Js.get source_id renderers_by_source with
      | Some rs => Some (Js.set source_id (rs ++ [r]) renderers_by_source)
      | None => None
      end
  end.

(** The whole loop, started from the empty object. *)
Fixpoint group_loop (rs : list DataRenderer)
    (renderers_by_source : Js.Object (list DataRenderer))
    : option (Js.Object (list DataRenderer)) :=
  match rs with
  | [] => Some renderers_by_source
  | r :: rs' =>
      match group_step renderers_by_source r with
      | Some o => group_loop rs' o
      | None => None
      end
  end.

Definition group_by_data_source (rs : list DataRenderer)
    : option (Js.Object (list DataRenderer)) :=
  group_loop rs [].

(** No renderer of [rs] resolves to a data-source identity that names a
    property of [Object.prototype]. *)
Definition ids_ok (rs : list DataRenderer) : bool :=
  forallb (λ r, match Renderer.source_id r with
                | Some d => negb (Js.inherited d)
                | None => true
                end) rs.

(** ** Events, modes and geometries *)

(** [SelectionMode] of core/enums: "replace", "append", "intersect" and
    "subtract". *)
Inductive SelectionMode := Replace | Append | Intersect | Subtract.

(** What the tool reads of a [UIEvent]; [event_type] stands for the
    rest of the event. *)
Record UIEvent := { event_type : string; shiftKey : bool; ctrlKey : bool }.

Record KeyEvent := { key_event : UIEvent; keyCode : Z }.

(** Exceptions of the modelled code: [TypeError] for a property read on
    [undefined], [Unreachable] for [unreachable()]. *)
Inductive Exn := TypeError | Unreachable.

Inductive Completion (A : Type) :=
| Return (a : A)
| Throw (e : Exn).
Arguments Return {A} a.
Arguments Throw {A} e.

Section SelectTool.

(** JS numbers, the views of renderers and the callback objects are
    opaque to the tool. *)
Context {number RendererView Callback : Type}.

(** [Keys.Esc], a key code of the table of core/dom. *)
Variable Keys_Esc : Z.

(** Screen-space geometries of core/geometry. *)
Inductive Geometry :=
| PointGeometry (sx sy : number)
| SpanGeometry (sx sy : number)
| RectGeometry (sx0 sx1 sy0 sy1 : number)
| PolyGeometry (sx sy : list number).

(** [GeometryData]: the fields of the geometry and the data-space
    fields added by the conversion. *)
Inductive GeometryData :=
| PointData (sx sy : number) (x y : number)
| SpanData (sx sy : number) (x y : number)
| RectData (sx0 sx1 sy0 sy1 : number) (x0 y0 x1 y1 : number)
| PolyData (sx sy : list number) (x y : list number).

(** The three inversions of a scale. *)
Record Scale := {
  invert : number → number;
  r_invert : number → number → number * number;
  v_invert : list number → list number;
}.

(** The event [new SelectionGeometry(geometry_data, final)]. *)
Record SelectionGeometry := {
  event_geometry : GeometryData;
  event_final : bool;
}.

(** The hit test and combination done by a selection manager's
    [select]: the new selected indices from the views, the geometry,
    the final flag, the mode and the current selected indices. *)
Variable hit_test :
  SelectionManager → list RendererView → Geometry → bool → SelectionMode →
  list nat → list nat.

(** ** The tool, its view and the plot *)

(** The properties of the [SelectTool] model that the view reads;
    [callback] is [None] when the property is [null] or [undefined]. *)
Record SelectTool := {
  mode : SelectionMode;
  callback : option Callback;
}.

(** What the view reads of the plot view.  The object [renderer_views]
    is built outside this file and is given by what its reads answer:
    [renderer_views !! id] is [Some v] when [id in renderer_views] holds
    and [renderer_views[id]] is [v], whether [id] is an own property or
    an inherited one, and [None] when [id in renderer_views] fails. *)
Record PlotView := {
  renderer_views : gmap string RendererView;
  xscales_default : Scale;
  yscales_default : Scale;
}.

(** [computed_renderers] is the value of the getter, that is the
    result of [compute_renderers] (of ../util, outside the sources) on
    the tool's renderers, the plot's renderers and the names. *)
Record SelectToolView := {
  model : SelectTool;
  plot_view : PlotView;
  computed_renderers : list DataRenderer;
}.

(** Modelled from the spec: a listener connected to the tool's [clear]
    signal ([Signal0] of core/signaling is outside the sources): the
    arrow function [() => this._clear()] of a view, or another
    subscriber, known by a name, whose only effect here is to be logged
    as notified. *)
Inductive Slot :=
| view_clear (this : SelectToolView)
| listener (name : string).

(** The calls made to collaborators, as they are logged. *)
Inductive Call :=
| CallSelect (sm : SelectionManager) (r_views : list RendererView)
    (geometry : Geometry) (final : bool) (mode : SelectionMode)
| CallClear (sm : SelectionManager)
| CallRequestRender
| CallEmitCallback (geometry : Geometry)
| CallTriggerEvent (e : SelectionGeometry)
| CallListener (name : string).

(** The mutable state the tool acts on. *)
Record World := {
  selected : gmap string (list nat);
  clear_slots : list Slot;
  render_requests : nat;
  calls : list Call;
}.

Definition selection_of (w : World) (sm : SelectionManager) : list nat :=
  default [] (selected w !! source sm).

(** ** Computations *)

Definition Eff (A : Type) : Type := World → Completion A * World.

Definition ret {A} (a : A) : Eff A := λ w, (Return a, w).

Definition bind {A B} (m : Eff A) (k : A → Eff B) : Eff B :=
  λ w, match m w with
       | (Return a, w') => k a w'
       | (Throw e, w') => (Throw e, w')
       end.

Definition throw {A} (e : Exn) : Eff A := λ w, (Throw e, w).

Local Notation "x <- m ;; k" := (bind m (λ x, k))
  (at level 100, m at next level, right associativity).
Local Notation "m ;;; k" := (bind m (λ _, k))
  (at level 100, right associativity).

(** [for (const x of l) body] *)
Fixpoint for_of {A} (l : list A) (body : A → Eff unit) : Eff unit :=
  match l with
  | [] => ret tt
  | x :: l' => body x ;;; for_of l' body
  end.

Definition log (c : Call) : Eff unit :=
  λ w, (Return tt,
        {| selected := selected w; clear_slots := clear_slots w;
           render_requests := render_requests w; calls := calls w ++ [c] |}).

Definition set_selection (sm : SelectionManager) (indices : list nat) : Eff unit :=
  λ w, (Return tt,
        {| selected := <[source sm := indices]> (selected w);
           clear_slots := clear_slots w;
           render_requests := render_requests w; calls := calls w |}).

(** ** Collaborators *)

(** [sm.select(r_views, geometry, final, mode)]: the manager replaces
    the selection of its source by the result of the hit test. *)
Definition SelectionManager_select (sm : SelectionManager)
    (r_views : list RendererView) (geometry : Geometry) (final : bool)
    (mode : SelectionMode) : Eff unit :=
  log (CallSelect sm r_views geometry final mode) ;;;
  (λ w, set_selection sm
          (hit_test sm r_views geometry final mode (selection_of w sm)) w).

(** Modelled from the spec: [sm.clear()], the clear operation of a
    selection-state owner, which is outside the sources, leaves the
    selection of its source empty. *)
Definition SelectionManager_clear (sm : SelectionManager) : Eff unit :=
  log (CallClear sm) ;;; set_selection sm [].

(** [this.plot_view.request_render()] *)
Definition request_render : Eff unit :=
  log CallRequestRender ;;;
  (λ w, (Return tt,
         {| selected := selected w; clear_slots := clear_slots w;
            render_requests := S (render_requests w); calls := calls w |})).

(** [this._emit_callback(geometry)], a method of the concrete tools. *)
Definition _emit_callback (geometry : Geometry) : Eff unit :=
  log (CallEmitCallback geometry).

(** [this.plot_model.trigger_event(e)] *)
Definition trigger_event (e : SelectionGeometry) : Eff unit :=
  log (CallTriggerEvent e).

(** ** [SelectToolView] *)

(** Lines 31-50. *)
Definition _computed_renderers_by_data_source (this : SelectToolView)
    : Eff (Js.Object (list DataRenderer)) :=
  match group_by_data_source (computed_renderers this) with
  | Some renderers_by_source => ret renderers_by_source
  | None => throw TypeError
  end.

(** Lines 52-65. *)
Definition _select_mode (this : SelectToolView) (ev : UIEvent)
    : Completion SelectionMode :=
  if negb (shiftKey ev) && negb (ctrlKey ev) then Return (mode (model this))
  else if shiftKey ev && negb (ctrlKey ev) then Return Append
  else if negb (shiftKey ev) && ctrlKey ev then Return Intersect
  else if shiftKey ev && ctrlKey ev then Return Subtract
  else Throw Unreachable.

(** Lines 73-78. *)
Definition _clear (this : SelectToolView) : Eff unit :=
  for_of (computed_renderers this)
    (λ renderer, SelectionManager_clear (Renderer.get_selection_manager renderer)) ;;;
  request_render.

(** Lines 67-71. *)
Definition _keyup (this : SelectToolView) (ev : KeyEvent) : Eff unit :=
  if bool_decide (keyCode ev = Keys_Esc) then _clear this else ret tt.

(** The [switch] of lines 107-137: the geometry in data space. *)
Definition geometry_data (xm ym : Scale) (geometry : Geometry) : GeometryData :=
  match geometry with
  | PointGeometry sx sy =>
      let x := invert xm sx in
      let y := invert ym sy in
      PointData sx sy x y
  | SpanGeometry sx sy =>
      let x := invert xm sx in
      let y := invert ym sy in
      SpanData sx sy x y
  | RectGeometry sx0 sx1 sy0 sy1 =>
      let '(x0, x1) := r_invert xm sx0 sx1 in
      let '(y0, y1) := r_invert ym sy0 sy1 in
      RectData sx0 sx1 sy0 sy1 x0 y0 x1 y1
  | PolyGeometry sx sy =>
      let x := v_invert xm sx in
      let y := v_invert ym sy in
      PolyData sx sy x y
  end.

(** Lines 102-140; [final] is [None] when the argument is left out. *)
Definition _emit_selection_event (this : SelectToolView)
    (geometry : Geometry) (final : option bool) : Eff unit :=
  let final := default true final in
  let xm := xscales_default (plot_view this) in
  let ym := yscales_default (plot_view this) in
  trigger_event
    {| event_geometry := geometry_data xm ym geometry; event_final := final |}.

(** The inner loop of lines 87-91: one more renderer of the group.  The
    lookup answers the test [r.id in renderer_views] and, when it
    holds, the read [renderer_views[r.id]]. *)
Definition r_views_step (this : SelectToolView) (r_views : list RendererView)
    (r : DataRenderer) : list RendererView :=
  match renderer_views (plot_view this) !! Renderer.id r with
  | Some view => r_views ++ [view]
  | None => r_views
  end.

(** The body of the loop of lines 83-93 for the key [id]. *)
Definition select_group (this : SelectToolView)
    (renderers_by_source : Js.Object (list DataRenderer))
    (geometry : Geometry) (final : bool) (mode : SelectionMode)
    (id : string) : Eff unit :=
  match Js.get id renderers_by_source with
  | None => throw TypeError
  | Some renderers =>
      match renderers with
      | [] => throw TypeError
      | r0 :: _ =>
          let sm := Renderer.get_selection_manager r0 in
          let r_views := fold_left (r_views_step this) renderers [] in
          SelectionManager_select sm r_views geometry final mode
      end
  end.

(** Lines 80-100. *)
Definition _select (this : SelectToolView) (geometry : Geometry)
    (final : bool) (mode : SelectionMode) : Eff unit :=
  renderers_by_source <- _computed_renderers_by_data_source this ;;
  for_of (Js.for_in_keys renderers_by_source)
    (select_group this renderers_by_source geometry final mode) ;;;
  (match callback (model this) with
   | Some _ => _emit_callback geometry
   | None => ret tt
   end) ;;;
  _emit_selection_event this geometry (Some final).

(** ** The clear signal of [SelectTool] *)

(** Modelled from the spec: running one listener of the signal, a
    zero-payload broadcast primitive that keeps its listeners in the
    order of their subscription. *)
Definition run_slot (s : Slot) : Eff unit :=
  match s with
  | view_clear this => _clear this
  | listener name => log (CallListener name)
  end.

(** Modelled from the spec: [this.clear.emit()] runs every listener, in
    the order of subscription. *)
Definition clear_emit : Eff unit :=
  λ w, for_of (clear_slots w) run_slot w.

(** Modelled from the spec: [this.clear.connect(slot)] subscribes one
    more listener. *)
Definition clear_connect (s : Slot) : Eff unit :=
  λ w, (Return tt,
        {| selected := selected w; clear_slots := clear_slots w ++ [s];
           render_requests := render_requests w; calls := calls w |}).

(** [SelectTool.initialize], line 166: a new signal, with no listener
    (what [super.initialize()] does is outside the sources). *)
Definition initialize : Eff unit :=
  λ w, (Return tt,
        {| selected := selected w; clear_slots := [];
           render_requests := render_requests w; calls := calls w |}).

(** [SelectToolView.connect_signals], lines 19-22 (what
    [super.connect_signals()] does is outside the sources). *)
Definition connect_signals (this : SelectToolView) : Eff unit :=
  clear_connect (view_clear this).

(** The handler of the last item of the menu, lines 216-218. *)
Definition menu_clear_handler : Eff unit := clear_emit.

(** ** Vocabulary of the statements about calls *)

(** The views of the renderers of [group] that have one in the plot's
    view tree, in the order of the group. *)
Definition live_views (this : SelectToolView) (group : list DataRenderer)
    : list RendererView :=
  omap (λ r, renderer_views (plot_view this) !! Renderer.id r) group.

(** [c] is the call that the loop of [_select] makes for the key [id]:
    the group under [id] has a first renderer, whose selection manager
    receives the live views of the group. *)
Definition select_call_of (this : SelectToolView)
    (groups : Js.Object (list DataRenderer))
    (geometry : Geometry) (final : bool) (mode : SelectionMode)
    (id : string) (c : Call) : Prop :=
  ∃ r0 rest,
    Js.get id groups = Some (r0 :: rest) ∧
    c = CallSelect (Renderer.get_selection_manager r0)
          (live_views this (r0 :: rest)) geometry final mode.

(** The calls of lines 96-97. *)
Definition callback_calls (this : SelectToolView) (geometry : Geometry) : list Call :=
  match callback (model this) with
  | Some _ => [CallEmitCallback geometry]
  | None => []
  end.

(** The event published by [_select]. *)
Definition selection_event (this : SelectToolView) (geometry : Geometry)
    (final : bool) : SelectionGeometry :=
  {| event_geometry :=
       geometry_data (xscales_default (plot_view this))
         (yscales_default (plot_view this)) geometry;
     event_final := final |}.

Definition is_select (c : Call) : bool :=
  match c with CallSelect _ _ _ _ _ => true | _ => false end.

(** [c] is a [select] on the owner of the data source [d]. *)
Definition selects_on (d : string) (c : Call) : bool :=
  match c with
  | CallSelect sm _ _ _ _ => bool_decide (source sm = d)
  | _ => false
  end.

Definition is_trigger (c : Call) : bool :=
  match c with CallTriggerEvent _ => true | _ => false end.

Definition is_notified (c : Call) : bool :=
  match c with CallListener _ => true | _ => false end.


(** The store after the loop of [_clear] over the renderers [rs]. *)
Definition cleared (rs : list DataRenderer) (store : gmap string (list nat))
    : gmap string (list nat) :=
  fold_left (λ m r, <[source (Renderer.get_selection_manager r) := []]> m) rs store.

(** The table of the specification for the mode of an interaction. *)
Definition resolve_mode (shift ctrl : bool) (default_mode : SelectionMode)
    : SelectionMode :=
  match shift, ctrl with
  | false, false => default_mode
  | true, false => Append
  | false, true => Intersect
  | true, true => Subtract
  end.

(** The rectangle converted with two scalar inversions per axis, which
    is what [geometry_data] does not do. *)
Definition rect_by_scalar_inversion (xm ym : Scale) (sx0 sx1 sy0 sy1 : number)
    : GeometryData :=
  RectData sx0 sx1 sy0 sy1 (invert xm sx0) (invert ym sy0) (invert xm sx1) (invert ym sy1).

End SelectTool.

(** ** The invariant of the grouping loop *)

(** What the grouping loop maintains: after the renderers [xs], the
    object [o] has distinct keys, holds under each key the renderers of
    [xs] with that data-source identity, in their order, has a key for
    every identity met, and holds no renderer beyond those of [xs] that
    resolve to an identity. *)
Record grouped (xs : list DataRenderer) (o : Js.Object (list DataRenderer)) : Prop := {
  grouped_keys : NoDup o.*1;
  grouped_get : ∀ d rs, Js.get d o = Some rs →
    rs ≠ [] ∧ rs = filter (λ r, Renderer.source_id r = Some d) xs;
  grouped_miss : ∀ d, Js.get d o = None →
    filter (λ r, Renderer.source_id r = Some d) xs = [];
  grouped_all : concat o.*2 ≡ₚ filter (λ r, is_Some (Renderer.source_id r)) xs;
}.

(** ** A plot for the examples

    The end-to-end scenario of the specification: the glyph renderers
    [A] and [B] share the data source [S], the glyph renderer [C] draws
    from [T].  Numbers are integers and a view is known by its name. *)

Module Scenario.

Definition S : DataSource.t := {| DataSource.id := "S" |}.

Definition T : DataSource.t := {| DataSource.id := "T" |}.

Definition A : DataRenderer :=
  Glyph {| GlyphRenderer.id := "A"; GlyphRenderer.data_source := S |}.

Definition B : DataRenderer :=
  Glyph {| GlyphRenderer.id := "B"; GlyphRenderer.data_source := S |}.

Definition C : DataRenderer :=
  Glyph {| GlyphRenderer.id := "C"; GlyphRenderer.data_source := T |}.

(** A graph renderer whose node renderer draws from [S]. *)
Definition G : DataRenderer :=
  Graph {| GraphRenderer.id := "G";
           GraphRenderer.node_renderer :=
             {| GlyphRenderer.id := "G.nodes"; GlyphRenderer.data_source := S |} |}.

(** A data renderer of a kind the tool does not recognise. *)
Definition other : DataRenderer := OtherRenderer "O" {| source := "U" |}.

(** Glyph renderers whose data sources have numeric identities. *)
Definition numbered (id source_id : string) : DataRenderer :=
  Glyph {| GlyphRenderer.id := id;
           GlyphRenderer.data_source := {| DataSource.id := source_id |} |}.

Definition linear : @Scale Z :=
  {| invert := λ s, (s - 100)%Z;
     r_invert := λ s0 s1, ((s0 - 100)%Z, (s1 - 100)%Z);
     v_invert := λ ss, (λ s, (s - 100)%Z) <$> ss |}.

(** A scale over bins of twenty pixels: a scalar is inverted to the
    index of its bin, a range to the half-open interval of the bins it
    meets, whatever the order of its ends. *)
Definition bins : @Scale Z :=
  {| invert := λ s, (s / 20)%Z;
     r_invert := λ s0 s1, ((Z.min s0 s1 / 20)%Z, (Z.max s0 s1 / 20 + 1)%Z);
     v_invert := λ ss, (λ s, (s / 20)%Z) <$> ss |}.

(** The hit test of the examples selects the number of views it is
    given, on top of the current selection. *)
Definition hit_test (sm : SelectionManager) (r_views : list string)
    (geometry : @Geometry Z) (final : bool) (mode : SelectionMode)
    (current : list nat) : list nat :=
  current ++ [length r_views].

Definition tool : @SelectTool unit := {| mode := Replace; callback := None |}.

(** [A] and [C] have a view in the plot, [B] has none yet. *)
Definition plot : @PlotView Z string :=
  {| renderer_views := {[ "A" := "view of A"; "C" := "view of C" ]};
     xscales_default := bins;
     yscales_default := linear |}.

Definition view : @SelectToolView Z string unit :=
  {| model := tool; plot_view := plot; computed_renderers := [A; B; C; other] |}.

Definition view_with_callback : @SelectToolView Z string unit :=
  {| model := {| mode := Append; callback := Some tt |};
     plot_view := plot;
     computed_renderers := [A; G; numbered "N1" "1002"; numbered "N2" "7"] |}.

Definition view_without_source : @SelectToolView Z string unit :=
  {| model := tool; plot_view := plot; computed_renderers := [other] |}.

(** A world in which the view and the toolbar listen to the clear
    signal of the tool. *)
Definition world : @World Z string unit :=
  {| selected := {[ "S" := [1; 2]; "T" := [0] ]};
     clear_slots := [view_clear view; listener "toolbar"];
     render_requests := 0;
     calls := [] |}.

Definition escape : KeyEvent :=
  {| key_event := {| event_type := "keyup"; shiftKey := false; ctrlKey := false |};
     keyCode := 27 |}.

End Scenario.

(** ** The order of the groups *)

(** The identities of [ds] that are not in [seen], each at its first
    occurrence. *)
Fixpoint first_seen (seen ds : list string) : list string :=
  match ds with
  | [] => []
  | d :: ds' =>
      if bool_decide (d ∈ seen) then first_seen seen ds'
      else d :: first_seen (seen ++ [d]) ds'
  end.

(** The object that holds, for each identity of [ks] in turn, the
    renderers of [rs] with that identity. *)
Definition groups_of (rs : list DataRenderer) (ks : list string)
    : Js.Object (list DataRenderer) :=
  (λ d, (d, filter (λ r, Renderer.source_id r = Some d) rs)) <$> ks.

(** ** The menu of [SelectTool] *)

#[global] Instance SelectionMode_eq_dec : EqDecision SelectionMode.
Proof. solve_decision. Defined.

Section Menu.

Context {number RendererView Callback : Type}.

(** The properties of the tool that the handlers of the menu assign:
    those of [SelectTool] that the view reads, and [active] of the
    tool. *)
Record ToolState := {
  tool : @SelectTool Callback;
  tool_active : bool;
}.

(** An item of the menu; [active] is [None] for an item without the
    function.  A handler runs on the state of the tool and may act on
    the world. *)
Record MenuItem := {
  icon : string;
  tooltip : string;
  active : option (ToolState → bool);
  handler : ToolState → @Eff number RendererView Callback ToolState;
}.

(** [this.mode = m; this.active = true] *)
Definition set_mode (m : SelectionMode) (t : ToolState) : ToolState :=
  {| tool := {| mode := m; callback := callback (tool t) |};
     tool_active := true |}.

(** The getter [menu], lines 177-221; [None] is the [null] that
    separates the items. *)
Definition menu : list (option MenuItem) :=
  [ Some {| icon := "bk-tool-icon-replace-mode";
            tooltip := "Replace the current selection";
            active := Some (λ t, bool_decide (mode (tool t) = Replace));
            handler := λ t, ret (set_mode Replace t) |};
    Some {| icon := "bk-tool-icon-append-mode";
            tooltip := "Append to the current selection (Shift)";
            active := Some (λ t, bool_decide (mode (tool t) = Append));
            handler := λ t, ret (set_mode Append t) |};
    Some {| icon := "bk-tool-icon-intersect-mode";
            tooltip := "Intersect with the current selection (Ctrl)";
            active := Some (λ t, bool_decide (mode (tool t) = Intersect));
            handler := λ t, ret (set_mode Intersect t) |};
    Some {| icon := "bk-tool-icon-subtract-mode";
            tooltip := "Subtract from the current selection (Shift+Ctrl)";
            active := Some (λ t, bool_decide (mode (tool t) = Subtract));
            handler := λ t, ret (set_mode Subtract t) |};
    None;
    Some {| icon := "bk-tool-icon-clear-selection";
            tooltip := "Clear the current selection (Esc)";
            active := None;
            handler := λ t, bind menu_clear_handler (λ _, ret t) |} ].

(** The items of the menu that report to be active in the state [t]. *)
Definition active_items (t : ToolState) : list MenuItem :=
  omap (λ entry : option MenuItem,
          match entry with
          | Some item =>
              match active item with
              | Some is_active => if is_active t then Some item else None
              | None => None
              end
          | None => None
          end) menu.

(** The shortcut that stands for the modifier keys in the tooltips. *)
Definition shortcut (shift ctrl : bool) : option string :=
  match shift, ctrl with
  | false, false => None
  | true, false => Some "(Shift)"
  | false, true => Some "(Ctrl)"
  | true, true => Some "(Shift+Ctrl)"
  end.

(** The screen-space fields that a [GeometryData] keeps of its
    geometry. *)
Definition screen_geometry (data : @GeometryData number) : @Geometry number :=
  match data with
  | PointData sx sy _ _ => PointGeometry sx sy
  | SpanData sx sy _ _ => SpanGeometry sx sy
  | RectData sx0 sx1 sy0 sy1 _ _ _ _ => RectGeometry sx0 sx1 sy0 sy1
  | PolyData sx sy _ _ => PolyGeometry sx sy
  end.

(** The data source whose owner a call selects. *)
Definition selected_source (c : @Call number RendererView) : option string :=
  match c with
  | CallSelect sm _ _ _ _ => Some (source sm)
  | _ => None
  end.

Definition is_clear (c : @Call number RendererView) : bool :=
  match c with CallClear _ => true | _ => false end.

Definition is_render (c : @Call number RendererView) : bool :=
  match c with CallRequestRender => true | _ => false end.

Definition is_callback (c : @Call number RendererView) : bool :=
  match c with CallEmitCallback _ => true | _ => false end.

End Menu.

(** ** The plot of the examples, its renderers in another order *)

Module Reordered.

Definition view : @SelectToolView Z string unit :=
  {| model := Scenario.tool;
     plot_view := Scenario.plot;
     computed_renderers := [Scenario.other; Scenario.C; Scenario.B; Scenario.A] |}.

End Reordered.

(** ** A data source named as a property of [Object.prototype] *)

Module Inherited.

(** A glyph renderer whose data source has the identity "toString". *)
Definition renderer : DataRenderer :=
  Glyph {| GlyphRenderer.id := "R";
           GlyphRenderer.data_source := {| DataSource.id := "toString" |} |}.

Definition view : @SelectToolView Z string unit :=
  {| model := Scenario.tool;
     plot_view := Scenario.plot;
     computed_renderers := [Scenario.A; renderer] |}.

Definition view_with_callback : @SelectToolView Z string unit :=
  {| model := {| mode := Replace; callback := Some tt |};
     plot_view := Scenario.plot;
     computed_renderers := [Scenario.A; renderer] |}.

End Inherited.

(** ** Two views of one tool *)

Module TwoViews.

(** The world of the examples, with two views of the tool connected to
    its clear signal: the view that receives the keys, then another. *)
Definition world : @World Z string unit :=
  {| selected := {[ "S" := [1; 2]; "T" := [0] ]};
     clear_slots := [view_clear Scenario.view_with_callback; view_clear Scenario.view];
     render_requests := 0;
     calls := [] |}.

End TwoViews.

(** * Properties *)

(** ** Dictionaries *)

Lemma get_None_keys {V} (k : string) (o : Js.Object V) :
  Js.get k o = None ↔ k ∉ o.*1.
Proof.
  induction o as [|[k' v] o IH]; simpl.
  - split; [intros _; apply not_elem_of_nil | done].
  - rewrite not_elem_of_cons. destruct (decide (k' = k)) as [->|Hne].
    + split; [done | intros [? _]; done].
    + rewrite IH. split; [intros ?; split; [congruence | done] | intros [_ ?]; done].
Qed.

Lemma has_own_true_get {V} (k : string) (o : Js.Object V) :
  Js.has_own k o = true ↔ is_Some (Js.get k o).
Proof.
  unfold Js.has_own. rewrite bool_decide_eq_true.
  destruct (Js.get k o) as [v|] eqn:E.
  - split; [eauto | intros _].
    destruct (decide (k ∈ o.*1)) as [|Hn]; [done|].
    apply get_None_keys in Hn. congruence.
  - apply get_None_keys in E. split; [done | intros [? ?]; done].
Qed.

Lemma has_not_inherited {V} (k : string) (o : Js.Object V) :
  Js.inherited k = false → Js.has k o = Js.has_own k o.
Proof. intros Hk. unfold Js.has. rewrite Hk. apply orb_false_r. Qed.

Lemma has_inherited {V} (k : string) (o : Js.Object V) :
  Js.inherited k = true → Js.has k o = true.
Proof. intros Hk. unfold Js.has. rewrite Hk. apply orb_true_r. Qed.

Lemma get_set_eq {V} (k : string) (v : V) (o : Js.Object V) :
  Js.get k (Js.set k v o) = Some v.
Proof.
  induction o as [|[k' v'] o IH]; simpl.
  - by rewrite decide_True.
  - destruct (decide (k' = k)) as [->|Hne]; simpl.
    + by rewrite decide_True.
    + by rewrite decide_False.
Qed.

Lemma get_set_ne {V} (k k' : string) (v : V) (o : Js.Object V) :
  k ≠ k' → Js.get k' (Js.set k v o) = Js.get k' o.
Proof.
  intros Hne. induction o as [|[k0 v0] o IH]; simpl.
  - by rewrite decide_False.
  - destruct (decide (k0 = k)) as [->|Hne0]; simpl.
    + by rewrite !decide_False.
    + by rewrite IH.
Qed.

Lemma keys_set_old {V} (k : string) (v : V) (o : Js.Object V) :
  k ∈ o.*1 → (Js.set k v o).*1 = o.*1.
Proof.
  induction o as [|[k' v'] o IH]; csimpl.
  - intros H. by apply elem_of_nil in H.
  - intros H. destruct (decide (k' = k)) as [->|Hne]; csimpl; [done|].
    f_equal. apply IH. apply elem_of_cons in H as [->|H]; done.
Qed.

Lemma keys_set_new {V} (k : string) (v : V) (o : Js.Object V) :
  k ∉ o.*1 → (Js.set k v o).*1 = o.*1 ++ [k].
Proof.
  induction o as [|[k' v'] o IH]; csimpl; [done|].
  rewrite not_elem_of_cons. intros [Hne Hn].
  rewrite decide_False by done. csimpl. by rewrite IH.
Qed.

Lemma values_set_new {V} (k : string) (v : V) (o : Js.Object V) :
  k ∉ o.*1 → (Js.set k v o).*2 = o.*2 ++ [v].
Proof.
  induction o as [|[k' v'] o IH]; csimpl; [done|].
  rewrite not_elem_of_cons. intros [Hne Hn].
  rewrite decide_False by done. csimpl. by rewrite IH.
Qed.

Lemma elem_of_get {V} (k : string) (v : V) (o : Js.Object V) :
  NoDup o.*1 → (k, v) ∈ o ↔ Js.get k o = Some v.
Proof.
  induction o as [|[k' v'] o IH]; simpl; intros Hnd.
  - split; [intros H; by apply elem_of_nil in H | done].
  - apply NoDup_cons in Hnd as [Hk Hnd]. rewrite elem_of_cons.
    destruct (decide (k' = k)) as [->|Hne].
    + split.
      * intros [[= ->]|Hin]; [done|].
        exfalso. apply Hk. apply list_elem_of_fmap. by exists (k, v).
      * intros [= ->]. by left.
    + rewrite <- (IH Hnd). split.
      * intros [[= -> ->]|Hin]; done.
      * by right.
Qed.

Lemma concat_set_push {A} (k : string) (rs : list A) (r : A) (o : Js.Object (list A)) :
  Js.get k o = Some rs →
  concat (Js.set k (rs ++ [r]) o).*2 ≡ₚ r :: concat o.*2.
Proof.
  induction o as [|[k' v'] o IH]; simpl; [done|].
  destruct (decide (k' = k)) as [->|Hne]; simpl.
  - intros [= ->]. rewrite <- app_assoc. simpl.
    symmetry. apply Permutation_middle.
  - intros H. rewrite (IH H). symmetry. apply Permutation_middle.
Qed.

(** ** Grouping by data source *)

Lemma grouped_nil : grouped [] [].
Proof.
  split; simpl; try done.
  apply NoDup_nil_2.
Qed.

Lemma grouped_skip (xs : list DataRenderer) (o : Js.Object (list DataRenderer))
    (r : DataRenderer) :
  Renderer.source_id r = None → grouped xs o → grouped (xs ++ [r]) o.
Proof.
  intros Hr [Hk Hg Hm Ha]. split; [done | | | ].
  - intros d rs Hd. destruct (Hg d rs Hd) as [Hne ->]. split; [done|].
    rewrite filter_app, filter_cons_False, filter_nil, app_nil_r; [done | congruence].
  - intros d Hd. rewrite filter_app, (Hm d Hd), filter_cons_False; [done | congruence].
  - rewrite filter_app, filter_cons_False, filter_nil, app_nil_r; [done|].
    rewrite Hr. by intros [? ?].
Qed.

Lemma grouped_push (xs : list DataRenderer) (o : Js.Object (list DataRenderer))
    (r : DataRenderer) (d : string) (rs : list DataRenderer) :
  Renderer.source_id r = Some d →
  NoDup o.*1 →
  (∀ d' rs', Js.get d' o = Some rs' →
     (d' ≠ d → rs' ≠ []) ∧ rs' = filter (λ r, Renderer.source_id r = Some d') xs) →
  (∀ d', Js.get d' o = None → filter (λ r, Renderer.source_id r = Some d') xs = []) →
  concat o.*2 ≡ₚ filter (λ r, is_Some (Renderer.source_id r)) xs →
  Js.get d o = Some rs →
  grouped (xs ++ [r]) (Js.set d (rs ++ [r]) o).
Proof.
  intros Hr Hk Hg Hm Ha Hd.
  assert (d ∈ o.*1) as Hin.
  { destruct (decide (d ∈ o.*1)) as [|Hn]; [done|].
    apply get_None_keys in Hn. congruence. }
  split.
  - by rewrite keys_set_old.
  - intros d' rs'. destruct (decide (d = d')) as [<-|Hne].
    + rewrite get_set_eq. intros [= <-]. split.
      * intros E. by apply app_eq_nil in E as [_ ?].
      * destruct (Hg d rs Hd) as [_ ->].
        by rewrite filter_app, filter_cons_True, filter_nil.
    + rewrite get_set_ne by done. intros Hd'.
      destruct (Hg d' rs' Hd') as [Hne' ->]. split; [by apply Hne'|].
      rewrite filter_app, filter_cons_False, filter_nil, app_nil_r; [done|].
      rewrite Hr. congruence.
  - intros d'. destruct (decide (d = d')) as [<-|Hne].
    + by rewrite get_set_eq.
    + rewrite get_set_ne by done. intros Hd'.
      rewrite filter_app, (Hm d' Hd'), filter_cons_False; [done|].
      rewrite Hr. congruence.
  - rewrite (concat_set_push _ _ _ _ Hd), Ha.
    rewrite filter_app, filter_cons_True, filter_nil by (rewrite Hr; eauto).
    apply Permutation_cons_append.
Qed.

Lemma group_step_grouped (xs : list DataRenderer) (o : Js.Object (list DataRenderer))
    (r : DataRenderer) :
  (∀ d, Renderer.source_id r = Some d → Js.inherited d = false) →
  grouped xs o → ∃ o', group_step o r = Some o' ∧ grouped (xs ++ [r]) o'.
Proof.
  intros Hid G. unfold group_step.
  destruct (Renderer.source_id r) as [d|] eqn:Hr.
  - destruct G as [Hk Hg Hm Ha].
    rewrite (has_not_inherited d o (Hid d eq_refl)).
    destruct (Js.has_own d o) eqn:Hhas; simpl.
    + apply has_own_true_get in Hhas as [rs Hd]. rewrite Hd.
      eexists; split; [done|].
      apply (grouped_push xs o r d rs); try done.
      intros d' rs' Hd'. destruct (Hg d' rs' Hd'). done.
    + assert (d ∉ o.*1) as Hn.
      { unfold Js.has_own in Hhas. by apply bool_decide_eq_false in Hhas. }
      rewrite get_set_eq. eexists; split; [done|].
      apply (grouped_push xs (Js.set d [] o) r d []); try done.
      * rewrite keys_set_new by done. apply NoDup_app. split; [done|].
        split; [|apply NoDup_singleton].
        intros x Hx Hx'. apply list_elem_of_singleton in Hx' as ->. done.
      * intros d' rs'. destruct (decide (d = d')) as [<-|Hne].
        -- rewrite get_set_eq. intros [= <-]. split; [done|].
           symmetry. apply Hm. by apply get_None_keys.
        -- rewrite get_set_ne by done. intros Hd'.
           destruct (Hg d' rs' Hd'). done.
      * intros d'. destruct (decide (d = d')) as [<-|Hne].
        -- by rewrite get_set_eq.
        -- rewrite get_set_ne by done. apply Hm.
      * rewrite values_set_new by done.
        by rewrite concat_app, app_nil_r.
      * apply get_set_eq.
  - eexists; split; [done|]. by apply grouped_skip.
Qed.

Lemma ids_ok_cons (r : DataRenderer) (rs : list DataRenderer) :
  ids_ok (r :: rs) = true ↔
  (∀ d, Renderer.source_id r = Some d → Js.inherited d = false) ∧ ids_ok rs = true.
Proof.
  unfold ids_ok. simpl. rewrite andb_true_iff.
  destruct (Renderer.source_id r) as [d|].
  - rewrite negb_true_iff. split.
    + intros [Hd Hrs]. split; [by intros ? [= <-] | done].
    + intros [Hd Hrs]. split; [by apply Hd | done].
  - split; intros [_ Hrs]; (split; [done | done]).
Qed.

Lemma group_loop_grouped (rs xs : list DataRenderer) (o : Js.Object (list DataRenderer)) :
  ids_ok rs = true →
  grouped xs o → ∃ o', group_loop rs o = Some o' ∧ grouped (xs ++ rs) o'.
Proof.
  revert xs o. induction rs as [|r rs IH]; intros xs o Hok G; simpl.
  - exists o. by rewrite app_nil_r.
  - apply ids_ok_cons in Hok as [Hr Hok].
    destruct (group_step_grouped xs o r Hr G) as (o1 & -> & G1).
    destruct (IH _ _ Hok G1) as (o' & Ho' & G').
    exists o'. split; [done|]. by rewrite <- app_assoc in G'.
Qed.

Lemma group_by_data_source_grouped (rs : list DataRenderer) :
  ids_ok rs = true →
  ∃ o, group_by_data_source rs = Some o ∧ grouped rs o.
Proof. intros Hok. apply (group_loop_grouped rs [] [] Hok), grouped_nil. Qed.

(** The keys of the object never name an inherited property, and the
    loop throws at the first renderer whose identity does. *)
Lemma group_step_keys_own (o o' : Js.Object (list DataRenderer)) (r : DataRenderer) :
  (∀ k, k ∈ o.*1 → Js.inherited k = false) →
  group_step o r = Some o' →
  ∀ k, k ∈ o'.*1 → Js.inherited k = false.
Proof.
  intros Hkeys. unfold group_step.
  destruct (Renderer.source_id r) as [d|]; [|by intros [= <-]].
  unfold Js.has. destruct (Js.has_own d o) eqn:Hown; simpl.
  - apply has_own_true_get in Hown as Hget. destruct Hget as [rs Hget].
    rewrite Hget. intros [= <-] k.
    unfold Js.has_own in Hown. apply bool_decide_eq_true in Hown.
    rewrite keys_set_old by done. apply Hkeys.
  - assert (d ∉ o.*1) as Hn.
    { unfold Js.has_own in Hown. by apply bool_decide_eq_false in Hown. }
    destruct (Js.inherited d) eqn:Hd; simpl.
    + apply get_None_keys in Hn. by rewrite Hn.
    + rewrite get_set_eq. intros [= <-] k.
      rewrite keys_set_old; rewrite keys_set_new by done.
      * rewrite elem_of_app, list_elem_of_singleton. intros [Hk| ->]; [by apply Hkeys | done].
      * apply elem_of_app. right. by left.
Qed.

Lemma group_step_throws (o : Js.Object (list DataRenderer)) (r : DataRenderer) (d : string) :
  (∀ k, k ∈ o.*1 → Js.inherited k = false) →
  Renderer.source_id r = Some d → Js.inherited d = true →
  group_step o r = None.
Proof.
  intros Hkeys Hr Hd. unfold group_step. rewrite Hr.
  rewrite (has_inherited d o Hd). simpl.
  assert (d ∉ o.*1) as Hn.
  { intros Hin. apply Hkeys in Hin. congruence. }
  apply get_None_keys in Hn. by rewrite Hn.
Qed.

Lemma group_loop_throws (rs : list DataRenderer) (o : Js.Object (list DataRenderer)) :
  (∀ k, k ∈ o.*1 → Js.inherited k = false) →
  ids_ok rs = false → group_loop rs o = None.
Proof.
  revert o. induction rs as [|r rs IH]; intros o Hkeys Hok; simpl; [done|].
  destruct (group_step o r) as [o1|] eqn:Hstep; [|done].
  apply IH; [by apply (group_step_keys_own o o1 r)|].
  unfold ids_ok in *. simpl in Hok. apply andb_false_iff in Hok as [Hr|Hrs]; [|done].
  exfalso. destruct (Renderer.source_id r) as [d|] eqn:Hd; [|done].
  apply negb_false_iff in Hr.
  rewrite (group_step_throws o r d Hkeys Hd Hr) in Hstep. done.
Qed.

Lemma group_by_data_source_throws (rs : list DataRenderer) :
  ids_ok rs = false → group_by_data_source rs = None.
Proof.
  intros Hok. apply group_loop_throws; [|done].
  intros k Hk. by apply elem_of_nil in Hk.
Qed.

(** ** Enumeration order *)

Lemma insert_index_perm (e : N * string) (l : list (N * string)) :
  Js.insert_index e l ≡ₚ e :: l.
Proof.
  induction l as [|e' l IH]; simpl; [done|].
  destruct (e.1 <=? e'.1)%N; [done|].
  rewrite IH. apply Permutation_swap.
Qed.

Lemma sort_index_perm (l : list (N * string)) : Js.sort_index l ≡ₚ l.
Proof.
  induction l as [|e l IH]; simpl; [done|].
  by rewrite insert_index_perm, IH.
Qed.

Lemma own_keys_perm (ks : list string) : Js.own_keys ks ≡ₚ ks.
Proof.
  unfold Js.own_keys. rewrite sort_index_perm.
  induction ks as [|k ks IH]; [done|].
  unfold Js.is_named, Js.indexed in *. simpl.
  destruct (Js.array_index k); csimpl.
  - by rewrite IH.
  - rewrite <- Permutation_middle. by rewrite IH.
Qed.

Lemma for_in_keys_perm {V} (o : Js.Object V) : Js.for_in_keys o ≡ₚ o.*1.
Proof. apply own_keys_perm. Qed.

Section Dispatch.

Context {number RendererView Callback : Type}.
Variable Keys_Esc : Z.
Variable hit_test :
  SelectionManager → list RendererView → @Geometry number → bool → SelectionMode →
  list nat → list nat.

Implicit Types (this : @SelectToolView number RendererView Callback).
Implicit Types (w : @World number RendererView Callback).
Implicit Types (geometry : @Geometry number).
Implicit Types (store : gmap string (list nat)).

(** ** Mode resolution *)

(** C2. [_select_mode] never reaches [unreachable()]: for every view and
    every event it returns the entry of the table for the event's
    [shiftKey] and [ctrlKey] and the tool's default mode, so its result
    is a function of these three values alone; the table has the four
    lines of the specification, for every default mode. *)
Theorem select_mode_table this (ev : UIEvent) :
  _select_mode this ev
    = Return (resolve_mode (shiftKey ev) (ctrlKey ev) (mode (model this)))
  ∧ ∀ default_mode : SelectionMode,
      resolve_mode false false default_mode = default_mode
      ∧ resolve_mode true false default_mode = Append
      ∧ resolve_mode false true default_mode = Intersect
      ∧ resolve_mode true true default_mode = Subtract.
Proof.
  split.
  - unfold _select_mode. destruct (shiftKey ev), (ctrlKey ev); reflexivity.
  - intros default_mode. repeat split.
Qed.

(** ** Clearing *)

Lemma cleared_lookup (rs : list DataRenderer) store (k : string) :
  cleared rs store !! k
  = if bool_decide (k ∈ (λ r, source (Renderer.get_selection_manager r)) <$> rs)
    then Some [] else store !! k.
Proof.
  revert store. induction rs as [|r rs IH]; intros store.
  - rewrite bool_decide_eq_false_2; [done | apply not_elem_of_nil].
  - change (cleared (r :: rs) store)
      with (cleared rs (<[source (Renderer.get_selection_manager r) := []]> store)).
    rewrite IH, fmap_cons.
    destruct (decide (k ∈ (λ r, source (Renderer.get_selection_manager r)) <$> rs))
      as [Hin|Hn].
    + rewrite (bool_decide_eq_true_2 _ Hin).
      rewrite bool_decide_eq_true_2; [done | by right].
    + rewrite (bool_decide_eq_false_2 _ Hn).
      destruct (decide (source (Renderer.get_selection_manager r) = k)) as [<-|Hne].
      * rewrite lookup_insert_eq, bool_decide_eq_true_2; [done | by left].
      * rewrite lookup_insert_ne by done.
        rewrite bool_decide_eq_false_2; [done|].
        rewrite not_elem_of_cons. split; [congruence | done].
Qed.

Lemma cleared_idempotent (rs : list DataRenderer) store :
  cleared rs (cleared rs store) = cleared rs store.
Proof.
  apply map_eq. intros k. rewrite (cleared_lookup rs (cleared rs store)).
  case_bool_decide as Hk; [|done].
  by rewrite cleared_lookup, bool_decide_eq_true_2.
Qed.

Lemma clear_loop_run (rs : list DataRenderer) w :
  for_of rs (λ r, SelectionManager_clear (Renderer.get_selection_manager r)) w
  = (Return tt,
     {| selected := cleared rs (selected w);
        clear_slots := clear_slots w;
        render_requests := render_requests w;
        calls := calls w ++ ((λ r, CallClear (Renderer.get_selection_manager r)) <$> rs) |}).
Proof.
  revert w. induction rs as [|r rs IH]; intros w.
  - destruct w. simpl. unfold ret. by rewrite app_nil_r.
  - simpl. unfold bind at 1.
    unfold SelectionManager_clear, bind, log, set_selection. simpl.
    rewrite IH. simpl. by rewrite <- app_assoc.
Qed.

Lemma clear_run this w :
  _clear this w
  = (Return tt,
     {| selected := cleared (computed_renderers this) (selected w);
        clear_slots := clear_slots w;
        render_requests := S (render_requests w);
        calls := calls w
                 ++ ((λ r, CallClear (Renderer.get_selection_manager r))
                       <$> computed_renderers this)
                 ++ [CallRequestRender] |}).
Proof.
  unfold _clear, bind. rewrite clear_loop_run.
  unfold request_render, bind, log. simpl. by rewrite <- app_assoc.
Qed.

(** C6. A call of [_clear] makes one [clear] call per computed renderer,
    in their order and without grouping, then one render request; it
    leaves the selection of every computed renderer's manager empty; and
    a second call in a row leaves the whole selection store as the first
    call left it, and again makes exactly one render request. *)
Theorem clear_idempotent this w :
  ∃ w1 w2,
    _clear this w = (Return tt, w1)
    ∧ _clear this w1 = (Return tt, w2)
    ∧ selected w2 = selected w1
    ∧ (∀ r, r ∈ computed_renderers this →
         selection_of w1 (Renderer.get_selection_manager r) = []
         ∧ selection_of w2 (Renderer.get_selection_manager r) = [])
    ∧ calls w1 = calls w
                 ++ ((λ r, CallClear (Renderer.get_selection_manager r))
                       <$> computed_renderers this)
                 ++ [CallRequestRender]
    ∧ calls w2 = calls w1
                 ++ ((λ r, CallClear (Renderer.get_selection_manager r))
                       <$> computed_renderers this)
                 ++ [CallRequestRender]
    ∧ render_requests w1 = S (render_requests w)
    ∧ render_requests w2 = S (render_requests w1).
Proof.
  eexists _, _. split; [apply clear_run|]. split; [apply clear_run|].
  simpl. split; [apply cleared_idempotent|].
  split; [|done].
  intros r Hr. unfold selection_of. simpl.
  rewrite cleared_idempotent, cleared_lookup, bool_decide_eq_true_2; [done|].
  apply list_elem_of_fmap. by exists r.
Qed.

(** ** Keyboard and the clear signal *)



Lemma connect_signals_subscribes this w :
  ∃ w',
    bind initialize (λ _, connect_signals this) w = (Return tt, w')
    ∧ clear_slots w' = [] ++ view_clear this :: []
    ∧ selected w' = selected w
    ∧ render_requests w' = render_requests w
    ∧ calls w' = calls w.
Proof. by eexists. Qed.

Lemma keyup_other_key this (ev : KeyEvent) w :
  keyCode ev ≠ Keys_Esc → _keyup Keys_Esc this ev w = (Return tt, w).
Proof. intros Hk. unfold _keyup. by rewrite bool_decide_eq_false_2. Qed.

(** C5, as amended. An Escape key event calls the view's [_clear]
    directly and does not fire the clear signal: it makes the [clear]
    calls and the render request of [_clear], notifies no listener of
    the signal and leaves the listeners as they were; it is the clear
    item of the menu that fires the signal. *)
Theorem escape_clears_directly this (e : UIEvent) w :
  _keyup Keys_Esc this {| key_event := e; keyCode := Keys_Esc |} w = _clear this w
  ∧ (∃ w',
       _keyup Keys_Esc this {| key_event := e; keyCode := Keys_Esc |} w = (Return tt, w')
       ∧ calls w' = calls w
                    ++ ((λ r, CallClear (Renderer.get_selection_manager r))
                          <$> computed_renderers this)
                    ++ [CallRequestRender]
       ∧ List.filter is_notified (calls w') = List.filter is_notified (calls w)
       ∧ clear_slots w' = clear_slots w)
  ∧ menu_clear_handler w = for_of (clear_slots w) run_slot w.
Proof.
  assert (_keyup Keys_Esc this {| key_event := e; keyCode := Keys_Esc |} w
          = _clear this w) as Hk.
  { unfold _keyup. simpl. by rewrite bool_decide_eq_true_2. }
  split; [done|]. split; [|done].
  rewrite Hk, clear_run. eexists. split; [done|]. simpl. split; [done|].
  split; [|done].
  rewrite !List.filter_app. simpl. rewrite app_nil_r.
  assert (List.filter is_notified
            ((λ r, CallClear (Renderer.get_selection_manager r))
               <$> computed_renderers this) = []) as ->.
  { induction (computed_renderers this); [done | by csimpl]. }
  by rewrite app_nil_r.
Qed.


(** ** Geometry in data space *)

(** C4. The event published by [_emit_selection_event] carries the
    geometry converted by cases on its shape: a point and a span get
    [x] and [y] by one scalar inversion through each scale; a rectangle
    gets [x0], [x1] from the range inversion of [(sx0, sx1)] by the x
    scale and [y0], [y1] from that of [(sy0, sy1)] by the y scale, so
    that it differs from the conversion by scalar inversions wherever
    those differ from the range inversion; a polygon gets the
    vectorized inversions of its two coordinate sequences. *)
Theorem geometry_conversion this geometry (final : option bool) w
    (xm ym : @Scale number) :
  _emit_selection_event this geometry final w
    = (Return tt,
       {| selected := selected w; clear_slots := clear_slots w;
          render_requests := render_requests w;
          calls := calls w
            ++ [CallTriggerEvent
                  {| event_geometry :=
                       geometry_data (xscales_default (plot_view this))
                         (yscales_default (plot_view this)) geometry;
                     event_final := default true final |}] |})
  ∧ (∀ sx sy,
       geometry_data xm ym (PointGeometry sx sy)
       = PointData sx sy (invert xm sx) (invert ym sy))
  ∧ (∀ sx sy,
       geometry_data xm ym (SpanGeometry sx sy)
       = SpanData sx sy (invert xm sx) (invert ym sy))
  ∧ (∀ sx0 sx1 sy0 sy1,
       geometry_data xm ym (RectGeometry sx0 sx1 sy0 sy1)
       = RectData sx0 sx1 sy0 sy1
           (r_invert xm sx0 sx1).1 (r_invert ym sy0 sy1).1
           (r_invert xm sx0 sx1).2 (r_invert ym sy0 sy1).2)
  ∧ (∀ sx0 sx1 sy0 sy1,
       r_invert xm sx0 sx1 ≠ (invert xm sx0, invert xm sx1)
       ∨ r_invert ym sy0 sy1 ≠ (invert ym sy0, invert ym sy1) →
       geometry_data xm ym (RectGeometry sx0 sx1 sy0 sy1)
       ≠ rect_by_scalar_inversion xm ym sx0 sx1 sy0 sy1)
  ∧ (∀ sx sy,
       geometry_data xm ym (PolyGeometry sx sy)
       = PolyData sx sy (v_invert xm sx) (v_invert ym sy)).
Proof.
  split; [done|]. split; [done|]. split; [done|].
  assert (∀ sx0 sx1 sy0 sy1,
            geometry_data xm ym (RectGeometry sx0 sx1 sy0 sy1)
            = RectData sx0 sx1 sy0 sy1
                (r_invert xm sx0 sx1).1 (r_invert ym sy0 sy1).1
                (r_invert xm sx0 sx1).2 (r_invert ym sy0 sy1).2) as Hrect.
  { intros. simpl. by destruct (r_invert xm sx0 sx1), (r_invert ym sy0 sy1). }
  split; [done|]. split; [|done].
  intros sx0 sx1 sy0 sy1 Hdiff. rewrite Hrect. unfold rect_by_scalar_inversion.
  intros [= Hx0 Hy0 Hx1 Hy1].
  destruct (r_invert xm sx0 sx1), (r_invert ym sy0 sy1). simpl in *.
  destruct Hdiff as [Hd|Hd]; apply Hd; congruence.
Qed.

(** ** Selection dispatch *)

Lemma source_of_manager (r : DataRenderer) (d : string) :
  Renderer.source_id r = Some d → source (Renderer.get_selection_manager r) = d.
Proof. destruct r; simpl; congruence. Qed.

Lemma r_views_loop this (group : list DataRenderer) (r_views : list RendererView) :
  fold_left (r_views_step this) group r_views = r_views ++ live_views this group.
Proof.
  revert r_views. induction group as [|r group IH]; intros r_views; simpl.
  - by rewrite app_nil_r.
  - rewrite IH. unfold r_views_step, live_views. csimpl.
    destruct (renderer_views (plot_view this) !! Renderer.id r); simpl.
    + by rewrite <- app_assoc.
    + done.
Qed.

Lemma select_group_run this (groups : Js.Object (list DataRenderer)) geometry
    (final : bool) (mode : SelectionMode) (k : string)
    (r0 : DataRenderer) (rest : list DataRenderer) w :
  Js.get k groups = Some (r0 :: rest) →
  select_group hit_test this groups geometry final mode k w
  = (Return tt,
     {| selected :=
          <[source (Renderer.get_selection_manager r0) :=
              hit_test (Renderer.get_selection_manager r0)
                (live_views this (r0 :: rest)) geometry final mode
                (selection_of w (Renderer.get_selection_manager r0))]> (selected w);
        clear_slots := clear_slots w;
        render_requests := render_requests w;
        calls := calls w
                 ++ [CallSelect (Renderer.get_selection_manager r0)
                       (live_views this (r0 :: rest)) geometry final mode] |}).
Proof.
  intros Hk. unfold select_group. rewrite Hk.
  rewrite (r_views_loop this (r0 :: rest) []). done.
Qed.

Lemma select_loop_run this (groups : Js.Object (list DataRenderer)) geometry
    (final : bool) (mode : SelectionMode) (ks : list string) w :
  (∀ k, k ∈ ks → ∃ r0 rest, Js.get k groups = Some (r0 :: rest)) →
  ∃ selects w',
    for_of ks (select_group hit_test this groups geometry final mode) w
      = (Return tt, w')
    ∧ Forall2 (select_call_of this groups geometry final mode) ks selects
    ∧ calls w' = calls w ++ selects
    ∧ clear_slots w' = clear_slots w
    ∧ render_requests w' = render_requests w.
Proof.
  revert w. induction ks as [|k ks IH]; intros w Hks.
  - exists [], w. simpl. by rewrite app_nil_r.
  - destruct (Hks k) as (r0 & rest & Hk); [by left|].
    simpl. unfold bind at 1.
    rewrite (select_group_run this groups geometry final mode k r0 rest w Hk).
    match goal with |- context [for_of ks _ ?w0] =>
      destruct (IH w0) as (selects & w' & Hrun & Hall & Hc & Hs & Hr)
    end.
    { intros k' Hk'. apply Hks. by right. }
    rewrite Hrun. simpl in Hc, Hs, Hr.
    eexists (_ :: selects), w'. split; [done|]. split.
    + constructor; [|done]. by exists r0, rest.
    + rewrite Hc, <- app_assoc. done.
Qed.

Lemma select_run this geometry (final : bool) (mode : SelectionMode) w :
  ids_ok (computed_renderers this) = true →
  ∃ groups selects w',
    group_by_data_source (computed_renderers this) = Some groups
    ∧ grouped (computed_renderers this) groups
    ∧ _select hit_test this geometry final mode w = (Return tt, w')
    ∧ Forall2 (select_call_of this groups geometry final mode)
        (Js.for_in_keys groups) selects
    ∧ calls w' = calls w ++ selects ++ callback_calls this geometry
                 ++ [CallTriggerEvent (selection_event this geometry final)]
    ∧ clear_slots w' = clear_slots w
    ∧ render_requests w' = render_requests w.
Proof.
  intros Hok.
  destruct (group_by_data_source_grouped (computed_renderers this) Hok)
    as (groups & Hgroups & G).
  destruct (select_loop_run this groups geometry final mode
              (Js.for_in_keys groups) w)
    as (selects & w1 & Hrun & Hall & Hc & Hs & Hr).
  { intros k Hk. rewrite for_in_keys_perm in Hk.
    destruct (Js.get k groups) as [[|r0 rest]|] eqn:E.
    - by destruct (grouped_get _ _ G k [] E).
    - eauto.
    - by apply get_None_keys in E. }
  exists groups, selects.
  unfold _select, _computed_renderers_by_data_source. rewrite Hgroups.
  unfold bind at 1. unfold ret at 1. unfold bind at 1. rewrite Hrun.
  unfold bind, callback_calls, _emit_callback, _emit_selection_event,
    trigger_event, log, selection_event.
  destruct (callback (model this)); simpl; eexists; (split; [done|]);
    (split; [done|]); (split; [done|]); (split; [done|]); simpl;
    rewrite Hc, Hs, Hr, <- ?app_assoc; done.
Qed.

Lemma select_throws this geometry (final : bool) (mode : SelectionMode) w :
  ids_ok (computed_renderers this) = false →
  group_by_data_source (computed_renderers this) = None
  ∧ _computed_renderers_by_data_source this w = (Throw TypeError, w)
  ∧ _select hit_test this geometry final mode w = (Throw TypeError, w).
Proof.
  intros Hok. pose proof (group_by_data_source_throws _ Hok) as Hnone.
  split; [done|].
  unfold _select, _computed_renderers_by_data_source, bind. by rewrite Hnone.
Qed.

Lemma select_call_source this (groups : Js.Object (list DataRenderer)) geometry
    (final : bool) (mode : SelectionMode) (k d : string) (c : @Call number RendererView) :
  grouped (computed_renderers this) groups →
  select_call_of this groups geometry final mode k c →
  is_select c = true ∧ selects_on d c = bool_decide (k = d).
Proof.
  intros G (r0 & rest & Hk & ->). split; [done|]. simpl.
  destruct (grouped_get _ _ G k _ Hk) as [_ Hrs].
  assert (r0 ∈ filter (λ r, Renderer.source_id r = Some k) (computed_renderers this))
    as Hin by (rewrite <- Hrs; by left).
  apply list_elem_of_filter in Hin as [Hr0 _].
  by rewrite (source_of_manager r0 k Hr0).
Qed.

Lemma count_key_NoDup (ks : list string) (d : string) :
  NoDup ks →
  (length (List.filter (λ k, bool_decide (k = d)) ks) ≤ 1)%nat
  ∧ (d ∈ ks → length (List.filter (λ k, bool_decide (k = d)) ks) = 1).
Proof.
  induction 1 as [|k ks Hk Hnd [IH1 IH2]]; simpl.
  - split; [lia | intros H; by apply elem_of_nil in H].
  - case_bool_decide as Hkd; simpl.
    + subst k.
      assert (List.filter (λ k, bool_decide (k = d)) ks = []) as ->.
      { clear -Hk. induction ks as [|k ks IH]; simpl; [done|].
        apply not_elem_of_cons in Hk as [Hne Hk].
        rewrite bool_decide_eq_false_2 by done. by apply IH. }
      simpl. split; [lia | done].
    + split; [done|]. intros Hin.
      apply elem_of_cons in Hin as [->|Hin]; [done | by apply IH2].
Qed.

Lemma select_calls_count this (groups : Js.Object (list DataRenderer)) geometry
    (final : bool) (mode : SelectionMode) (ks : list string)
    (selects : list (@Call number RendererView)) (d : string) :
  grouped (computed_renderers this) groups →
  Forall2 (select_call_of this groups geometry final mode) ks selects →
  forallb is_select selects = true
  ∧ List.filter (selects_on d) selects
    = List.filter (selects_on d) (List.filter is_select selects)
  ∧ length (List.filter (selects_on d) selects)
    = length (List.filter (λ k, bool_decide (k = d)) ks).
Proof.
  intros G. induction 1 as [|k c ks selects Hkc Hall (IH1 & IH2 & IH3)]; simpl; [done|].
  destruct (select_call_source this groups geometry final mode k d c G Hkc) as [Hs Hd].
  rewrite Hs, Hd. simpl. rewrite Hd.
  split; [done|]. case_bool_decide; simpl; by rewrite <- ?IH2, ?IH3.
Qed.

Lemma callback_calls_not_select this geometry (d : string) :
  List.filter is_select (callback_calls this geometry) = []
  ∧ List.filter (selects_on d) (callback_calls this geometry) = []
  ∧ List.filter is_trigger (callback_calls this geometry) = [].
Proof. unfold callback_calls. by destruct (callback (model this)). Qed.

(** C1. In a call of [_select], whether it returns or throws, there is
    among the calls it makes, for every data-source identity, at most
    one [select] on the selection manager of that source, however many
    computed renderers share the source.  The call returns unless a
    computed renderer resolves to an identity that names a property of
    [Object.prototype]; when it returns there is exactly one [select]
    for the source of each glyph or graph renderer among the computed
    renderers, and when it throws no call has been made. *)
Theorem select_once_per_source this geometry (final : bool) (mode : SelectionMode) w :
  ∃ new w',
    _select hit_test this geometry final mode w
      = (if ids_ok (computed_renderers this) then Return tt else Throw TypeError, w')
    ∧ calls w' = calls w ++ new
    ∧ (∀ d : string, (length (List.filter (selects_on d) new) ≤ 1)%nat)
    ∧ (ids_ok (computed_renderers this) = true →
       ∀ r d, r ∈ computed_renderers this → Renderer.source_id r = Some d →
         length (List.filter (selects_on d) new) = 1)
    ∧ (ids_ok (computed_renderers this) = false → new = []).
Proof.
  destruct (ids_ok (computed_renderers this)) eqn:Hok.
  - destruct (select_run this geometry final mode w Hok)
      as (groups & selects & w' & Hgroups & G & Hrun & Hall & Hc & _).
    eexists _, w'. split; [done|]. split; [done|].
    assert (NoDup (Js.for_in_keys groups)) as Hnd.
    { rewrite for_in_keys_perm. apply (grouped_keys _ _ G). }
    assert (∀ d, length (List.filter (selects_on d)
                   (selects ++ callback_calls this geometry
                    ++ [CallTriggerEvent (selection_event this geometry final)]))
                 = length (List.filter (λ k, bool_decide (k = d)) (Js.for_in_keys groups)))
      as Hcount.
    { intros d. rewrite !List.filter_app, !length_app.
      destruct (callback_calls_not_select this geometry d) as (_ & -> & _).
      destruct (select_calls_count this groups geometry final mode _ _ d G Hall)
        as (_ & _ & ->). simpl. lia. }
    split; [|split; [|done]].
    + intros d. rewrite Hcount. by apply count_key_NoDup.
    + intros _ r d Hr Hd. rewrite Hcount. apply count_key_NoDup; [done|].
      rewrite for_in_keys_perm.
      destruct (decide (d ∈ groups.*1)) as [|Hn]; [done|]. exfalso.
      apply get_None_keys in Hn.
      pose proof (grouped_miss _ _ G d Hn) as Hempty.
      assert (r ∈ filter (λ r, Renderer.source_id r = Some d) (computed_renderers this))
        as Hin by (by apply list_elem_of_filter).
      rewrite Hempty in Hin. by apply elem_of_nil in Hin.
  - destruct (select_throws this geometry final mode w Hok) as (_ & _ & Hrun).
    exists [], w. split; [done|]. split; [by rewrite app_nil_r|].
    split; [intros d; simpl; lia|]. split; [done | done].
Qed.

(** X14. The grouping resolves a glyph renderer to the identity of its
    data source, a graph renderer to that of the data source of its
    node renderer, and no other kind of renderer.  When no computed
    renderer resolves to an identity that names a property of
    [Object.prototype], [_computed_renderers_by_data_source] returns,
    without any effect, an object whose keys are distinct and whose
    groups taken together hold exactly the computed renderers that
    resolve to an identity, and no renderer of another kind; the group
    under an identity is not empty and holds all the computed renderers
    of that identity, in the order of the input; no renderer is in two
    groups.  Otherwise it throws a [TypeError]. *)
Theorem grouping_partitions this w :
  (∀ g, Renderer.source_id (Glyph g)
        = Some (DataSource.id (GlyphRenderer.data_source g)))
  ∧ (∀ g, Renderer.source_id (Graph g)
          = Some (DataSource.id
                    (GlyphRenderer.data_source (GraphRenderer.node_renderer g))))
  ∧ (∀ id sm, Renderer.source_id (OtherRenderer id sm) = None)
  ∧ if ids_ok (computed_renderers this) then
      ∃ groups,
        _computed_renderers_by_data_source this w = (Return groups, w)
        ∧ NoDup groups.*1
        ∧ concat groups.*2
          ≡ₚ filter (λ r, is_Some (Renderer.source_id r)) (computed_renderers this)
        ∧ (∀ id sm, OtherRenderer id sm ∉ concat groups.*2)
        ∧ (∀ d rs, (d, rs) ∈ groups →
             rs ≠ []
             ∧ rs = filter (λ r, Renderer.source_id r = Some d) (computed_renderers this)
             ∧ sublist rs (computed_renderers this))
        ∧ (∀ r d, r ∈ computed_renderers this → Renderer.source_id r = Some d →
             ∃ rs, (d, rs) ∈ groups ∧ r ∈ rs)
        ∧ (∀ r d d' rs rs', (d, rs) ∈ groups → (d', rs') ∈ groups →
             r ∈ rs → r ∈ rs' → d = d' ∧ rs = rs')
    else _computed_renderers_by_data_source this w = (Throw TypeError, w).
Proof.
  split; [done|]. split; [done|]. split; [done|].
  destruct (ids_ok (computed_renderers this)) eqn:Hok;
    [|by destruct (select_throws this (PolyGeometry [] []) true Replace w Hok)
        as (_ & ? & _)].
  destruct (group_by_data_source_grouped (computed_renderers this) Hok)
    as (groups & Hgroups & G).
  pose proof (grouped_keys _ _ G) as Hnd.
  exists groups. unfold _computed_renderers_by_data_source. rewrite Hgroups.
  split; [done|]. split; [done|]. split; [apply (grouped_all _ _ G)|].
  assert (∀ d rs, (d, rs) ∈ groups →
            rs ≠ []
            ∧ rs = filter (λ r, Renderer.source_id r = Some d) (computed_renderers this))
    as Hget.
  { intros d rs Hin. apply (grouped_get _ _ G). by apply elem_of_get. }
  split; [|split; [|split]].
  - intros id sm Hin. rewrite (grouped_all _ _ G) in Hin.
    apply list_elem_of_filter in Hin as [[d Hd] _]. done.
  - intros d rs Hin. destruct (Hget d rs Hin) as [Hne Hrs].
    split; [done|]. split; [done|]. rewrite Hrs. apply sublist_filter.
  - intros r d Hr Hd.
    destruct (Js.get d groups) as [rs|] eqn:E.
    + exists rs. split; [by apply elem_of_get|].
      destruct (grouped_get _ _ G d rs E) as [_ ->].
      by apply list_elem_of_filter.
    + pose proof (grouped_miss _ _ G d E) as Hempty.
      assert (r ∈ filter (λ r, Renderer.source_id r = Some d) (computed_renderers this))
        as Hin by (by apply list_elem_of_filter).
      rewrite Hempty in Hin. by apply elem_of_nil in Hin.
  - intros r d d' rs rs' Hin Hin' Hr Hr'.
    destruct (Hget d rs Hin) as [_ Hrs]. destruct (Hget d' rs' Hin') as [_ Hrs'].
    rewrite Hrs in Hr. rewrite Hrs' in Hr'.
    apply list_elem_of_filter in Hr as [Hd _].
    apply list_elem_of_filter in Hr' as [Hd' _].
    assert (d = d') as <- by congruence.
    split; [done | congruence].
Qed.

(** C7. When the grouping of a call of [_select] returns its groups, the
    call returns and its [select] calls are made one per group, in the
    order of the enumeration of the groups: the call for a group goes
    to the selection manager of the first renderer of the group and
    passes the views of exactly those renderers of the group that have
    a view in the plot's view tree, in the order of the group.  The
    group itself still holds every computed renderer of its data
    source, and there are as many [select] calls as groups, whatever
    views exist.  When the grouping throws, so does [_select], and no
    group is processed. *)
Theorem select_passes_live_views this geometry (final : bool) (mode : SelectionMode) w :
  match group_by_data_source (computed_renderers this) with
  | Some groups =>
      _computed_renderers_by_data_source this w = (Return groups, w)
      ∧ ∃ selects w',
          _select hit_test this geometry final mode w = (Return tt, w')
          ∧ calls w' = calls w ++ selects ++ callback_calls this geometry
                       ++ [CallTriggerEvent (selection_event this geometry final)]
          ∧ Forall2
              (λ id c, ∃ r0 rest,
                 Js.get id groups = Some (r0 :: rest)
                 ∧ r0 :: rest
                   = filter (λ r, Renderer.source_id r = Some id)
                       (computed_renderers this)
                 ∧ c = CallSelect (Renderer.get_selection_manager r0)
                         (omap (λ r, renderer_views (plot_view this) !! Renderer.id r)
                            (r0 :: rest))
                         geometry final mode)
              (Js.for_in_keys groups) selects
          ∧ Js.for_in_keys groups ≡ₚ groups.*1
          ∧ length selects = length groups
  | None =>
      _computed_renderers_by_data_source this w = (Throw TypeError, w)
      ∧ _select hit_test this geometry final mode w = (Throw TypeError, w)
  end.
Proof.
  destruct (ids_ok (computed_renderers this)) eqn:Hok.
  - destruct (select_run this geometry final mode w Hok)
      as (groups & selects & w' & Hgroups & G & Hrun & Hall & Hc & _).
    rewrite Hgroups. unfold _computed_renderers_by_data_source. rewrite Hgroups.
    split; [done|]. exists selects, w'.
    split; [done|]. split; [done|]. split; [|split].
    + eapply Forall2_impl; [exact Hall|].
      intros k c (r0 & rest & Hk & ->). exists r0, rest.
      split; [done|]. split; [|done].
      by destruct (grouped_get _ _ G k _ Hk) as [_ <-].
    + apply for_in_keys_perm.
    + rewrite <- (Forall2_length _ _ _ Hall), (for_in_keys_perm groups).
      by rewrite length_fmap.
  - destruct (select_throws this geometry final mode w Hok) as (-> & ? & ?). done.
Qed.

(** X15. When no computed renderer resolves to an identity that names a
    property of [Object.prototype], the calls of [_select] are, in this
    order: the [select] calls of the groups, one per group; then, when
    a callback is configured, the one call of the callback hook, and no
    call when none is configured; then the publication of the selection
    event.  Otherwise [_select] throws a [TypeError] and makes no
    call. *)
Theorem callback_after_updates_before_event this geometry (final : bool)
    (mode : SelectionMode) w :
  if ids_ok (computed_renderers this) then
    ∃ groups selects w',
      _computed_renderers_by_data_source this w = (Return groups, w)
      ∧ _select hit_test this geometry final mode w = (Return tt, w')
      ∧ calls w' = calls w
                   ++ selects
                   ++ match callback (model this) with
                      | Some _ => [CallEmitCallback geometry]
                      | None => []
                      end
                   ++ [CallTriggerEvent (selection_event this geometry final)]
      ∧ forallb is_select selects = true
      ∧ length selects = length groups
  else _select hit_test this geometry final mode w = (Throw TypeError, w).
Proof.
  destruct (ids_ok (computed_renderers this)) eqn:Hok;
    [|by destruct (select_throws this geometry final mode w Hok) as (_ & _ & ?)].
  destruct (select_run this geometry final mode w Hok)
    as (groups & selects & w' & Hgroups & G & Hrun & Hall & Hc & _).
  exists groups, selects, w'.
  unfold _computed_renderers_by_data_source. rewrite Hgroups.
  split; [done|]. split; [done|]. split; [done|]. split.
  - by destruct (select_calls_count this groups geometry final mode _ _ "" G Hall)
      as (? & _).
  - rewrite <- (Forall2_length _ _ _ Hall), (for_in_keys_perm groups).
    by rewrite length_fmap.
Qed.

(** X16. When no computed renderer resolves to an identity that names a
    property of [Object.prototype], a call of [_select] returns and
    publishes exactly one selection event, which carries the final flag
    and the geometry with its data-space fields: the scalar inversions
    of a point or a span, the range inversions of a rectangle, the
    vectorized inversions of a polygon; this holds with no computed
    renderer at all, and when no computed renderer resolves to an
    identity no [select] call is made and the event is still published
    once.  Otherwise [_select] throws a [TypeError] and publishes
    nothing. *)
Theorem select_publishes_once this geometry (final : bool) (mode : SelectionMode) w :
  if ids_ok (computed_renderers this) then
    ∃ new w',
      _select hit_test this geometry final mode w = (Return tt, w')
      ∧ calls w' = calls w ++ new
      ∧ List.filter is_trigger new
        = [CallTriggerEvent
             {| event_geometry :=
                  match geometry with
                  | PointGeometry sx sy =>
                      PointData sx sy
                        (invert (xscales_default (plot_view this)) sx)
                        (invert (yscales_default (plot_view this)) sy)
                  | SpanGeometry sx sy =>
                      SpanData sx sy
                        (invert (xscales_default (plot_view this)) sx)
                        (invert (yscales_default (plot_view this)) sy)
                  | RectGeometry sx0 sx1 sy0 sy1 =>
                      RectData sx0 sx1 sy0 sy1
                        (r_invert (xscales_default (plot_view this)) sx0 sx1).1
                        (r_invert (yscales_default (plot_view this)) sy0 sy1).1
                        (r_invert (xscales_default (plot_view this)) sx0 sx1).2
                        (r_invert (yscales_default (plot_view this)) sy0 sy1).2
                  | PolyGeometry sx sy =>
                      PolyData sx sy
                        (v_invert (xscales_default (plot_view this)) sx)
                        (v_invert (yscales_default (plot_view this)) sy)
                  end;
                event_final := final |}]
      ∧ ((∀ r, r ∈ computed_renderers this → Renderer.source_id r = None) →
           List.filter is_select new = []
           ∧ new = callback_calls this geometry
                   ++ [CallTriggerEvent (selection_event this geometry final)])
  else _select hit_test this geometry final mode w = (Throw TypeError, w).
Proof.
  destruct (ids_ok (computed_renderers this)) eqn:Hok;
    [|by destruct (select_throws this geometry final mode w Hok) as (_ & _ & ?)].
  destruct (select_run this geometry final mode w Hok)
    as (groups & selects & w' & Hgroups & G & Hrun & Hall & Hc & _).
  eexists _, w'. split; [done|]. split; [done|]. split.
  - rewrite !List.filter_app.
    destruct (callback_calls_not_select this geometry "") as (_ & _ & ->).
    assert (List.filter is_trigger selects = []) as ->.
    { clear -Hall. induction Hall as [|k c ks selects (r0 & rest & _ & ->) _ IH]; done. }
    simpl. unfold selection_event. do 2 f_equal.
    destruct geometry as [sx sy|sx sy|sx0 sx1 sy0 sy1|sx sy]; simpl;
      [done | done | | done].
    by destruct (r_invert (xscales_default (plot_view this)) sx0 sx1),
         (r_invert (yscales_default (plot_view this)) sy0 sy1).
  - intros Hnone.
    assert (groups = []) as ->.
    { destruct groups as [|[d rs] groups]; [done|]. exfalso.
      destruct (grouped_get _ _ G d rs) as [Hne Hrs].
      { simpl. by rewrite decide_True. }
      destruct rs as [|r rs]; [done|].
      assert (r ∈ filter (λ r, Renderer.source_id r = Some d) (computed_renderers this))
        as Hin by (rewrite <- Hrs; by left).
      apply list_elem_of_filter in Hin as [Hd Hr].
      rewrite (Hnone r Hr) in Hd. done. }
    apply Forall2_nil_inv_l in Hall as ->. simpl. split; [|done].
    rewrite List.filter_app.
    by destruct (callback_calls_not_select this geometry "") as (-> & _ & _).
Qed.

(** ** The groups in closed form *)

Lemma object_from_keys {V} (f : string → V) (o : Js.Object V) :
  NoDup o.*1 →
  (∀ d, d ∈ o.*1 → Js.get d o = Some (f d)) →
  o = (λ d, (d, f d)) <$> o.*1.
Proof.
  induction o as [|[k v] o IH]; csimpl; intros Hnd Hget; [done|].
  apply NoDup_cons in Hnd as [Hk Hnd].
  pose proof (Hget k) as Hkv. rewrite decide_True in Hkv by done.
  assert (v = f k) as -> by (assert (Some v = Some (f k)) as [=] by (apply Hkv; by left); done).
  f_equal. apply IH; [done|].
  intros d Hd. specialize (Hget d). rewrite decide_False in Hget.
  - apply Hget. by right.
  - intros ->. done.
Qed.

Lemma group_step_keys (o o' : Js.Object (list DataRenderer)) (r : DataRenderer) :
  group_step o r = Some o' →
  o'.*1 = o.*1 ++ first_seen o.*1 (omap Renderer.source_id [r]).
Proof.
  unfold group_step. csimpl.
  destruct (Renderer.source_id r) as [d|]; csimpl.
  - unfold Js.has. destruct (Js.has_own d o) eqn:Hown; simpl.
    + pose proof Hown as Hin. unfold Js.has_own in Hin. apply bool_decide_eq_true in Hin.
      destruct (Js.get d o) as [rs|]; [|done]. intros [= <-].
      rewrite keys_set_old by done.
      by rewrite bool_decide_eq_true_2, app_nil_r.
    + assert (d ∉ o.*1) as Hn.
      { unfold Js.has_own in Hown. by apply bool_decide_eq_false in Hown. }
      destruct (Js.inherited d); simpl.
      * apply get_None_keys in Hn. by rewrite Hn.
      * rewrite get_set_eq. intros [= <-].
        rewrite keys_set_old; rewrite keys_set_new by done.
        -- by rewrite bool_decide_eq_false_2.
        -- apply elem_of_app. right. by left.
  - intros [= <-]. by rewrite app_nil_r.
Qed.

Lemma first_seen_cons (seen : list string) (d : string) (ds : list string) :
  first_seen seen (d :: ds)
  = first_seen seen [d] ++ first_seen (seen ++ first_seen seen [d]) ds.
Proof.
  simpl. case_bool_decide; simpl; [by rewrite app_nil_r | done].
Qed.

Lemma group_loop_keys (rs : list DataRenderer) (o o' : Js.Object (list DataRenderer)) :
  group_loop rs o = Some o' →
  o'.*1 = o.*1 ++ first_seen o.*1 (omap Renderer.source_id rs).
Proof.
  revert o. induction rs as [|r rs IH]; intros o; simpl.
  - intros [= <-]. by rewrite app_nil_r.
  - destruct (group_step o r) as [o1|] eqn:Hstep; [|done]. intros Hloop.
    rewrite (IH o1 Hloop), (group_step_keys o o1 r Hstep). csimpl.
    destruct (Renderer.source_id r) as [d|]; csimpl.
    + case_bool_decide; [by rewrite app_nil_r | by rewrite <- app_assoc].
    + by rewrite app_nil_r.
Qed.

Lemma group_by_closed (rs : list DataRenderer) :
  ids_ok rs = true →
  group_by_data_source rs
  = Some (groups_of rs (first_seen [] (omap Renderer.source_id rs))).
Proof.
  intros Hok.
  destruct (group_by_data_source_grouped rs Hok) as (o & Ho & G).
  rewrite Ho. f_equal.
  pose proof (group_loop_keys rs [] o Ho) as Hkeys. simpl in Hkeys.
  unfold groups_of. rewrite <- Hkeys.
  apply object_from_keys; [apply (grouped_keys _ _ G)|].
  intros d Hd. destruct (Js.get d o) as [rs'|] eqn:E.
  - by destruct (grouped_get _ _ G d rs' E) as [_ ->].
  - by apply get_None_keys in E.
Qed.

Lemma first_seen_fresh (seen ds : list string) :
  NoDup (first_seen seen ds)
  ∧ ∀ d, d ∈ first_seen seen ds ↔ d ∈ ds ∧ d ∉ seen.
Proof.
  revert seen. induction ds as [|d ds IH]; intros seen; simpl.
  - split; [apply NoDup_nil_2|]. intros d. rewrite elem_of_nil. tauto.
  - case_bool_decide as Hd.
    + destruct (IH seen) as [Hnd Hin]. split; [done|].
      intros x. rewrite Hin, elem_of_cons. intuition congruence.
    + destruct (IH (seen ++ [d])) as [Hnd Hin]. split.
      * apply NoDup_cons. split; [|done].
        rewrite Hin, elem_of_app, list_elem_of_singleton. tauto.
      * intros x. rewrite !elem_of_cons, Hin, elem_of_app, list_elem_of_singleton.
        destruct (decide (x = d)) as [->|Hne]; tauto.
Qed.

(** X7. The result of [_computed_renderers_by_data_source] is
    determined in full.  A glyph renderer resolves to the identity of
    its data source, a graph renderer to that of the data source of its
    node renderer, another renderer to none.  When no computed renderer
    resolves to an identity that names a property of
    [Object.prototype], the object returned has for keys, in the order
    of their creation, the identities of the computed renderers in the
    order of their first appearance, without repetition, and under each
    key the computed renderers of that identity, in the order of the
    input; otherwise the call throws a [TypeError].  In both cases the
    world is left as it was. *)
Theorem grouping_closed_form this w :
  (∀ g, Renderer.source_id (Glyph g)
        = Some (DataSource.id (GlyphRenderer.data_source g)))
  ∧ (∀ g, Renderer.source_id (Graph g)
          = Some (DataSource.id
                    (GlyphRenderer.data_source (GraphRenderer.node_renderer g))))
  ∧ (∀ id sm, Renderer.source_id (OtherRenderer id sm) = None)
  ∧ _computed_renderers_by_data_source this w
    = (if ids_ok (computed_renderers this)
       then Return
              (groups_of (computed_renderers this)
                 (first_seen [] (omap Renderer.source_id (computed_renderers this))))
       else Throw TypeError,
       w)
  ∧ NoDup (first_seen [] (omap Renderer.source_id (computed_renderers this)))
  ∧ ∀ d, d ∈ first_seen [] (omap Renderer.source_id (computed_renderers this))
         ↔ ∃ r, r ∈ computed_renderers this ∧ Renderer.source_id r = Some d.
Proof.
  split; [done|]. split; [done|]. split; [done|]. split.
  - destruct (ids_ok (computed_renderers this)) eqn:Hok.
    + unfold _computed_renderers_by_data_source. by rewrite group_by_closed.
    + by destruct (select_throws this (PolyGeometry [] []) true Replace w Hok)
        as (_ & ? & _).
  - destruct (first_seen_fresh [] (omap Renderer.source_id (computed_renderers this)))
      as [Hnd Hin].
    split; [done|]. intros d. rewrite Hin, list_elem_of_omap.
    split.
    + intros [(r & Hr & Hd) _]. eauto.
    + intros (r & Hr & Hd). split; [eauto | apply not_elem_of_nil].
Qed.

(** ** The selection store after a selection *)

Lemma select_loop_store this (groups : Js.Object (list DataRenderer)) geometry
    (final : bool) (mode : SelectionMode) (ks : list string) w :
  NoDup ks →
  (∀ k, k ∈ ks → ∃ r0 rest,
     Js.get k groups = Some (r0 :: rest)
     ∧ source (Renderer.get_selection_manager r0) = k) →
  ∃ w',
    for_of ks (select_group hit_test this groups geometry final mode) w
      = (Return tt, w')
    ∧ (∀ d, d ∉ ks → selected w' !! d = selected w !! d)
    ∧ (∀ d r0 rest, d ∈ ks → Js.get d groups = Some (r0 :: rest) →
         selected w' !! d
         = Some (hit_test (Renderer.get_selection_manager r0)
                   (live_views this (r0 :: rest)) geometry final mode
                   (selection_of w (Renderer.get_selection_manager r0)))).
Proof.
  revert w. induction ks as [|k ks IH]; intros w Hnd Hks.
  - exists w. simpl. split; [done|]. split; [done|].
    intros d r0 rest Hd. by apply elem_of_nil in Hd.
  - apply NoDup_cons in Hnd as [Hk Hnd].
    destruct (Hks k) as (r0 & rest & Hget & Hsrc); [by left|].
    simpl. unfold bind at 1.
    rewrite (select_group_run this groups geometry final mode k r0 rest w Hget).
    match goal with |- context [for_of ks _ ?w0] =>
      destruct (IH w0 Hnd) as (w' & Hrun & Hout & Hin)
    end.
    { intros k' Hk'. apply Hks. by right. }
    rewrite Hrun. exists w'. split; [done|]. simpl in Hout. split.
    + intros d Hd. apply not_elem_of_cons in Hd as [Hne Hd].
      rewrite (Hout d Hd). apply lookup_insert_ne. congruence.
    + intros d r1 rest1 Hd Hget1. apply elem_of_cons in Hd as [->|Hd].
      * rewrite Hget in Hget1. injection Hget1 as <- <-.
        rewrite (Hout k Hk), <- Hsrc. apply lookup_insert_eq.
      * rewrite (Hin d r1 rest1 Hd Hget1). do 2 f_equal.
        destruct (Hks d) as (r1' & rest1' & Hget1' & Hsrc1); [by right|].
        rewrite Hget1 in Hget1'. injection Hget1' as <- <-.
        unfold selection_of. simpl. rewrite lookup_insert_ne; [done|].
        rewrite Hsrc, Hsrc1. intros ->. done.
Qed.

Lemma select_run_store this geometry (final : bool) (mode : SelectionMode) w :
  ids_ok (computed_renderers this) = true →
  ∃ groups w',
    group_by_data_source (computed_renderers this) = Some groups
    ∧ grouped (computed_renderers this) groups
    ∧ _select hit_test this geometry final mode w = (Return tt, w')
    ∧ (∀ d, Js.get d groups = None → selected w' !! d = selected w !! d)
    ∧ (∀ d r0 rest, Js.get d groups = Some (r0 :: rest) →
         source (Renderer.get_selection_manager r0) = d
         ∧ selected w' !! d
           = Some (hit_test (Renderer.get_selection_manager r0)
                     (live_views this (r0 :: rest)) geometry final mode
                     (selection_of w (Renderer.get_selection_manager r0)))).
Proof.
  intros Hok.
  destruct (group_by_data_source_grouped (computed_renderers this) Hok)
    as (groups & Hgroups & G).
  assert (∀ d r0 rest, Js.get d groups = Some (r0 :: rest) →
            source (Renderer.get_selection_manager r0) = d) as Hsrc.
  { intros d r0 rest Hd. destruct (grouped_get _ _ G d _ Hd) as [_ Hrs].
    assert (r0 ∈ filter (λ r, Renderer.source_id r = Some d) (computed_renderers this))
      as Hin by (rewrite <- Hrs; by left).
    apply list_elem_of_filter in Hin as [Hr0 _]. by apply source_of_manager. }
  destruct (select_loop_store this groups geometry final mode
              (Js.for_in_keys groups) w)
    as (w1 & Hrun & Hout & Hin).
  { rewrite for_in_keys_perm. apply (grouped_keys _ _ G). }
  { intros k Hk. rewrite for_in_keys_perm in Hk.
    destruct (Js.get k groups) as [[|r0 rest]|] eqn:E.
    - by destruct (grouped_get _ _ G k [] E).
    - exists r0, rest. split; [done|]. by apply (Hsrc k r0 rest).
    - by apply get_None_keys in E. }
  exists groups.
  unfold _select, _computed_renderers_by_data_source. rewrite Hgroups.
  unfold bind at 1. unfold ret at 1. unfold bind at 1. rewrite Hrun.
  unfold bind, _emit_callback, _emit_selection_event, trigger_event, log.
  assert (∀ d, Js.get d groups = None → selected w1 !! d = selected w !! d) as Hnone.
  { intros d Hd. apply Hout. rewrite for_in_keys_perm. by apply get_None_keys. }
  assert (∀ d r0 rest, Js.get d groups = Some (r0 :: rest) →
            source (Renderer.get_selection_manager r0) = d
            ∧ selected w1 !! d
              = Some (hit_test (Renderer.get_selection_manager r0)
                        (live_views this (r0 :: rest)) geometry final mode
                        (selection_of w (Renderer.get_selection_manager r0))))
    as Hsome.
  { intros d r0 rest Hd. split; [by apply (Hsrc d r0 rest)|].
    apply Hin; [|done]. rewrite for_in_keys_perm.
    destruct (decide (d ∈ groups.*1)) as [|Hn]; [done|].
    apply get_None_keys in Hn. congruence. }
  destruct (callback (model this)); simpl; eexists;
    (split; [done|]); (split; [done|]); (split; [done|]); simpl; done.
Qed.

(** X1. When the grouping of a call of [_select] returns its groups,
    the call applies the hit test exactly once to the selection of each
    data source that has a group, starting from the selection the
    source had before the call, with the manager of the first renderer
    of the group and the live views of the group; the selection of
    every other data source is left as it was.  When the grouping
    throws, [_select] throws and leaves the world, and so every
    selection, as it was. *)
Theorem select_updates_each_source_once this geometry (final : bool)
    (mode : SelectionMode) w :
  match group_by_data_source (computed_renderers this) with
  | Some groups =>
      _computed_renderers_by_data_source this w = (Return groups, w)
      ∧ ∃ w',
          _select hit_test this geometry final mode w = (Return tt, w')
          ∧ (∀ d, Js.get d groups = None → selected w' !! d = selected w !! d)
          ∧ (∀ d r0 rest, Js.get d groups = Some (r0 :: rest) →
               source (Renderer.get_selection_manager r0) = d
               ∧ selected w' !! d
                 = Some (hit_test (Renderer.get_selection_manager r0)
                           (live_views this (r0 :: rest)) geometry final mode
                           (selection_of w (Renderer.get_selection_manager r0))))
  | None =>
      _computed_renderers_by_data_source this w = (Throw TypeError, w)
      ∧ _select hit_test this geometry final mode w = (Throw TypeError, w)
  end.
Proof.
  destruct (ids_ok (computed_renderers this)) eqn:Hok.
  - destruct (select_run_store this geometry final mode w Hok)
      as (groups & w' & Hgroups & _ & Hrun & Hnone & Hsome).
    rewrite Hgroups. unfold _computed_renderers_by_data_source. rewrite Hgroups.
    split; [done|]. by exists w'.
  - destruct (select_throws this geometry final mode w Hok) as (-> & ? & ?). done.
Qed.

(** X2. A call of [_select], whether it returns or throws, makes only
    [select] calls, the call of the callback hook and the publication
    of the event: it requests no render, calls no [clear] and leaves
    the listeners of the clear signal as they are.  A call of [_clear]
    makes only [clear] calls and the render request: it selects
    nothing, calls no callback and publishes no event. *)
Theorem dispatch_call_kinds this geometry (final : bool) (mode : SelectionMode) w :
  (∃ new w',
     _select hit_test this geometry final mode w
       = (if ids_ok (computed_renderers this) then Return tt else Throw TypeError, w')
     ∧ calls w' = calls w ++ new
     ∧ forallb (λ c, is_select c || is_callback c || is_trigger c) new = true
     ∧ render_requests w' = render_requests w
     ∧ clear_slots w' = clear_slots w)
  ∧ (∃ new w',
       _clear this w = (Return tt, w')
       ∧ calls w' = calls w ++ new
       ∧ forallb (λ c, is_clear c || is_render c) new = true
       ∧ clear_slots w' = clear_slots w).
Proof.
  split.
  - destruct (ids_ok (computed_renderers this)) eqn:Hok.
    + destruct (select_run this geometry final mode w Hok)
        as (groups & selects & w' & _ & G & Hrun & Hall & Hc & Hs & Hr).
      eexists _, w'. split; [done|]. split; [done|]. split; [|done].
      rewrite !forallb_app. apply andb_true_iff. split.
      * clear -Hall. induction Hall as [|k c ks selects (r0 & rest & _ & ->) _ IH]; done.
      * unfold callback_calls. by destruct (callback (model this)).
    + destruct (select_throws this geometry final mode w Hok) as (_ & _ & Hrun).
      exists [], w. split; [done|]. split; [by rewrite app_nil_r | done].
  - rewrite clear_run. eexists _, _. split; [done|]. simpl. split; [done|].
    split; [|done]. rewrite forallb_app. apply andb_true_iff. split; [|done].
    induction (computed_renderers this); done.
Qed.

(** X3. Clearing after a selection gives the selection store that
    clearing alone gives: whatever [_select] wrote, for any geometry,
    mode and hit test, and whether it returned or threw, a following
    [_clear] leaves the same store as a [_clear] made instead of the
    selection. *)
Theorem clear_after_select this geometry (final : bool) (mode : SelectionMode) w :
  ∃ w1 w2 w3,
    _select hit_test this geometry final mode w
      = (if ids_ok (computed_renderers this) then Return tt else Throw TypeError, w1)
    ∧ _clear this w1 = (Return tt, w2)
    ∧ _clear this w = (Return tt, w3)
    ∧ selected w2 = selected w3.
Proof.
  destruct (ids_ok (computed_renderers this)) eqn:Hok.
  - destruct (select_run_store this geometry final mode w Hok)
      as (groups & w1 & Hgroups & G & Hrun & Hnone & Hsome).
    eexists w1, _, _. split; [done|]. split; [apply clear_run|].
    split; [apply clear_run|]. simpl.
    apply map_eq. intros d. rewrite !cleared_lookup.
    case_bool_decide as Hd; [done|]. apply Hnone.
    destruct (Js.get d groups) as [[|r0 rest]|] eqn:E; [| |done].
    + by destruct (grouped_get _ _ G d [] E).
    + exfalso. apply Hd. destruct (Hsome d r0 rest E) as [Hsrc _].
      destruct (grouped_get _ _ G d _ E) as [_ Hrs].
      assert (r0 ∈ filter (λ r, Renderer.source_id r = Some d) (computed_renderers this))
        as Hin by (rewrite <- Hrs; by left).
      apply list_elem_of_filter in Hin as [_ Hr0].
      apply list_elem_of_fmap. by exists r0.
  - destruct (select_throws this geometry final mode w Hok) as (_ & _ & Hrun).
    eexists w, _, _. split; [done|]. split; [apply clear_run|].
    split; [apply clear_run | done].
Qed.

(** X8. The order of the updates is determined.  When no computed
    renderer resolves to an identity that names a property of
    [Object.prototype], the data sources whose owners [_select] calls
    are, in the order of the calls, the enumeration of the keys of the
    grouping object, that is the identities of the computed renderers
    that are array indices, in ascending order, then the others in the
    order of their first appearance among the computed renderers.
    Otherwise [_select] throws a [TypeError] before any call. *)
Theorem select_call_order this geometry (final : bool) (mode : SelectionMode) w :
  if ids_ok (computed_renderers this) then
    ∃ selects w',
      _select hit_test this geometry final mode w = (Return tt, w')
      ∧ calls w' = calls w ++ selects ++ callback_calls this geometry
                   ++ [CallTriggerEvent (selection_event this geometry final)]
      ∧ forallb is_select selects = true
      ∧ omap selected_source selects
        = Js.own_keys (first_seen [] (omap Renderer.source_id (computed_renderers this)))
  else _select hit_test this geometry final mode w = (Throw TypeError, w).
Proof.
  destruct (ids_ok (computed_renderers this)) eqn:Hok;
    [|by destruct (select_throws this geometry final mode w Hok) as (_ & _ & ?)].
  destruct (select_run this geometry final mode w Hok)
    as (groups & selects & w' & Hgroups & G & Hrun & Hall & Hc & _).
  exists selects, w'. split; [done|]. split; [done|]. split.
  - by destruct (select_calls_count this groups geometry final mode _ _ "" G Hall)
      as (? & _).
  - rewrite (group_by_closed _ Hok) in Hgroups. injection Hgroups as Hgroups.
    assert (Js.for_in_keys groups
            = Js.own_keys (first_seen [] (omap Renderer.source_id (computed_renderers this))))
      as <-.
    { unfold Js.for_in_keys. rewrite <- Hgroups. unfold groups_of.
      rewrite <- list_fmap_compose. f_equal. apply list_fmap_id. }
    clear -Hall G. induction Hall as [|k c ks selects Hkc _ IH]; [done|].
    destruct Hkc as (r0 & rest & Hk & ->). csimpl. rewrite IH. f_equal.
    destruct (grouped_get _ _ G k _ Hk) as [_ Hrs].
    assert (r0 ∈ filter (λ r, Renderer.source_id r = Some k) (computed_renderers this))
      as Hin by (rewrite <- Hrs; by left).
    apply list_elem_of_filter in Hin as [Hr0 _]. by apply source_of_manager.
Qed.

(** ** Clearing, keys and the menu *)

(** X4. After [_clear] the selection of a data source is empty when its
    owner is the manager of some computed renderer, of whatever kind,
    the kinds that the grouping skips included; the selection of any
    other data source is what it was before. *)
Theorem clear_store this w :
  ∃ w',
    _clear this w = (Return tt, w')
    ∧ (∀ d : string,
         selected w' !! d
         = if bool_decide
                (d ∈ (λ r, source (Renderer.get_selection_manager r))
                       <$> computed_renderers this)
           then Some [] else selected w !! d)
    ∧ (∀ id sm, OtherRenderer id sm ∈ computed_renderers this →
         selected w' !! source sm = Some []).
Proof.
  rewrite clear_run. eexists. split; [done|]. simpl. split.
  - intros d. apply cleared_lookup.
  - intros id sm Hin. rewrite cleared_lookup, bool_decide_eq_true_2; [done|].
    apply list_elem_of_fmap. by exists (OtherRenderer id sm).
Qed.

(** X5. A key event always returns, and it leaves the world exactly as
    it was if and only if its key code is not Escape; the modifier keys
    of the event play no part. *)
Theorem keyup_acts_on_escape_only this (ev : KeyEvent) w :
  ∃ w',
    _keyup Keys_Esc this ev w = (Return tt, w')
    ∧ (w' = w ↔ keyCode ev ≠ Keys_Esc).
Proof.
  unfold _keyup. case_bool_decide as Hk.
  - rewrite clear_run. eexists. split; [done|]. split.
    + intros Hw. apply (f_equal render_requests) in Hw. simpl in Hw. lia.
    + done.
  - exists w. split; [done|]. done.
Qed.

Lemma connect_loop (views : list (@SelectToolView number RendererView Callback)) w :
  for_of views connect_signals w
  = (Return tt,
     {| selected := selected w;
        clear_slots := clear_slots w ++ (view_clear <$> views);
        render_requests := render_requests w;
        calls := calls w |}).
Proof.
  revert w. induction views as [|v views IH]; intros w.
  - destruct w. simpl. unfold ret. by rewrite app_nil_r.
  - simpl. unfold bind, connect_signals, clear_connect. rewrite IH. simpl.
    by rewrite <- app_assoc.
Qed.

Lemma emit_to_views (views : list (@SelectToolView number RendererView Callback)) w :
  for_of (view_clear <$> views) run_slot w = for_of views _clear w.
Proof.
  revert w. induction views as [|v views IH]; intros w; [done|].
  csimpl. unfold bind. destruct (_clear v w) as [[[]|e] w']; [apply IH | done].
Qed.

Lemma clear_views_run (views : list (@SelectToolView number RendererView Callback)) w :
  ∃ w',
    for_of views _clear w = (Return tt, w')
    ∧ render_requests w' = length views + render_requests w
    ∧ clear_slots w' = clear_slots w.
Proof.
  revert w. induction views as [|v views IH]; intros w.
  - by exists w.
  - simpl. unfold bind. rewrite clear_run.
    match goal with |- context [for_of views _ ?w0] =>
      destruct (IH w0) as (w' & -> & Hr & Hs)
    end.
    exists w'. split; [done|]. simpl in Hr, Hs. split; [lia | done].
Qed.

(** X6. Once the tool is initialized and views have connected their
    signals, the listeners of the clear signal are the views, in the
    order of their connection and nothing else has changed; the clear
    item of the menu, the last one, then runs [_clear] of every
    connected view in that order, returns, keeps the state of the tool
    and makes one render request per view. *)
Theorem menu_clear_reaches_views
    (views : list (@SelectToolView number RendererView Callback)) w :
  ∃ w0 w',
    bind initialize (λ _, for_of views connect_signals) w = (Return tt, w0)
    ∧ clear_slots w0 = view_clear <$> views
    ∧ selected w0 = selected w
    ∧ render_requests w0 = render_requests w
    ∧ calls w0 = calls w
    ∧ for_of views _clear w0 = (Return tt, w')
    ∧ menu_clear_handler w0 = (Return tt, w')
    ∧ render_requests w' = length views + render_requests w0
    ∧ ∃ item,
        last (@menu number RendererView Callback) = Some (Some item)
        ∧ active item = None
        ∧ ∀ t, handler item t w0 = (Return t, w').
Proof.
  unfold bind at 1. unfold initialize. rewrite connect_loop. simpl.
  eexists _. 
  match goal with |- ∃ w', ?w0eq ∧ _ =>
    match w0eq with (_, ?w0) = _ =>
      destruct (clear_views_run views w0) as (w' & Hrun & Hr & Hs)
    end
  end.
  assert (∀ w0 : @World number RendererView Callback,
            clear_slots w0 = view_clear <$> views →
            menu_clear_handler w0 = for_of views _clear w0) as Hmenu.
  { intros w0 Hw0. unfold menu_clear_handler, clear_emit. rewrite Hw0.
    apply emit_to_views. }
  exists w'. split; [done|]. simpl. split; [done|]. split; [done|].
  split; [done|]. split; [done|]. split; [done|].
  split; [by rewrite Hmenu|]. split; [done|].
  eexists. split; [reflexivity|]. split; [done|].
  intros t. simpl. unfold bind. rewrite Hmenu by done. by rewrite Hrun.
Qed.

(** X9. The geometry data always keep the screen-space fields of the
    geometry they come from, whatever the scales return; so the event
    published by [_emit_selection_event] carries the geometry it was
    given, with the final flag, which is [true] when the argument is
    left out. *)
Theorem event_keeps_screen_geometry this geometry (final : option bool) w
    (xm ym : @Scale number) :
  screen_geometry (geometry_data xm ym geometry) = geometry
  ∧ ∃ e w',
      _emit_selection_event this geometry final w = (Return tt, w')
      ∧ calls w' = calls w ++ [CallTriggerEvent e]
      ∧ screen_geometry (event_geometry e) = geometry
      ∧ event_final e = default true final
      ∧ selected w' = selected w
      ∧ render_requests w' = render_requests w.
Proof.
  assert (∀ xm ym : @Scale number,
            screen_geometry (geometry_data xm ym geometry) = geometry) as Hkeep.
  { intros xm' ym'. destruct geometry as [sx sy|sx sy|sx0 sx1 sy0 sy1|sx sy]; simpl;
      [done | done | | done].
    by destruct (r_invert xm' sx0 sx1), (r_invert ym' sy0 sy1). }
  split; [apply Hkeep|].
  eexists _, _. split; [reflexivity|]. simpl. split; [done|].
  split; [apply Hkeep | done].
Qed.

(** X10. In every state of the tool exactly one item of the menu
    reports to be active, and it is the item whose handler keeps the
    mode of the tool: running it changes nothing but [active], which
    becomes [true], and does not touch the world. *)
Theorem menu_marks_current_mode (t : @ToolState Callback) w :
  ∃ item,
    @active_items number RendererView Callback t = [item]
    ∧ handler item t w
      = (Return {| tool := tool t; tool_active := true |}, w).
Proof.
  destruct t as [[m cb] a]. destruct m; eexists; split; reflexivity.
Qed.

(** X11. Running the handler of any item of the menu that has an
    [active] function returns without a change to the world (the
    selection is not touched), keeps the callback, makes the tool
    active and makes this item the one active item; from then on an
    event with neither shift nor ctrl resolves to the mode that the
    handler has set. *)
Theorem menu_click_sets_mode (t : @ToolState Callback) w :
  Forall
    (λ entry : option (@MenuItem number RendererView Callback),
       match entry with
       | Some item =>
           match active item with
           | Some is_active =>
               ∃ t',
                 handler item t w = (Return t', w)
                 ∧ is_active t' = true
                 ∧ active_items t' = [item]
                 ∧ tool_active t' = true
                 ∧ callback (tool t') = callback (tool t)
                 ∧ ∀ this (ev : UIEvent),
                     model this = tool t' →
                     shiftKey ev = false → ctrlKey ev = false →
                     _select_mode this ev = Return (mode (tool t'))
           | None => True
           end
       | None => True
       end)
    menu.
Proof.
  assert (∀ (m : SelectionMode) this (ev : UIEvent),
            model this = tool (set_mode m t) →
            shiftKey ev = false → ctrlKey ev = false →
            _select_mode this ev = Return (mode (tool (set_mode m t)))) as Hmode.
  { intros m this ev Hm Hs Hc. unfold _select_mode. by rewrite Hs, Hc, Hm. }
  repeat constructor; simpl; eexists; (split; [reflexivity|]);
    (split; [reflexivity|]); (split; [reflexivity|]); (split; [reflexivity|]);
    (split; [reflexivity|]); apply Hmode.
Qed.

(** X12. The shortcuts shown in the tooltips of the menu agree with
    [_select_mode]: an event with shift, with ctrl or with both resolves
    to the mode set by the handler of the item whose tooltip ends with
    "(Shift)", "(Ctrl)" or "(Shift+Ctrl)" respectively, whatever the
    tool's own mode; an event with neither resolves to the tool's own
    mode. *)
Theorem menu_shortcuts_agree this (ev : UIEvent) :
  match shortcut (shiftKey ev) (ctrlKey ev) with
  | Some text =>
      ∃ (item : @MenuItem number RendererView Callback) (label : string)
        (m : SelectionMode),
        Some item ∈ menu
        ∧ tooltip item = label +:+ text
        ∧ _select_mode this ev = Return m
        ∧ ∀ t w, handler item t w = (Return (set_mode m t), w)
  | None => _select_mode this ev = Return (mode (model this))
  end.
Proof.
  unfold _select_mode.
  destruct (shiftKey ev), (ctrlKey ev); simpl; [| | |done].
  - eexists _, "Subtract from the current selection ", Subtract.
    split; [apply list_elem_of_lookup; by exists 3|]. done.
  - eexists _, "Append to the current selection ", Append.
    split; [apply list_elem_of_lookup; by exists 1|]. done.
  - eexists _, "Intersect with the current selection ", Intersect.
    split; [apply list_elem_of_lookup; by exists 2|]. done.
Qed.

(** X13. Clearing does not depend on the order of the computed
    renderers: two views whose computed renderers are the same up to
    their order leave, from the same world, the same selection store
    and the same number of render requests. *)
Theorem clear_order_independent this this' w :
  computed_renderers this ≡ₚ computed_renderers this' →
  ∃ w1 w2,
    _clear this w = (Return tt, w1)
    ∧ _clear this' w = (Return tt, w2)
    ∧ selected w1 = selected w2
    ∧ render_requests w1 = render_requests w2.
Proof.
  intros Hperm. rewrite !clear_run. eexists _, _.
  split; [done|]. split; [done|]. simpl. split; [|done].
  apply map_eq. intros d. rewrite !cleared_lookup.
  assert (d ∈ (λ r, source (Renderer.get_selection_manager r)) <$> computed_renderers this
          ↔ d ∈ (λ r, source (Renderer.get_selection_manager r)) <$> computed_renderers this')
    as Hiff by (by rewrite Hperm).
  by rewrite (bool_decide_ext _ _ Hiff).
Qed.

End Dispatch.

(** * The properties on the plot of the examples *)

(** The loop of [for (const id in o)] visits array indices first, in
    ascending numeric order, then the other keys as they were created. *)
Example for_in_order :
  Js.for_in_keys [("S", 0); ("1002", 1); ("T", 2); ("7", 3); ("007", 4)]
  = ["7"; "1002"; "S"; "T"; "007"].
Proof. reflexivity. Qed.

Example groups_of_scenario :
  group_by_data_source [Scenario.A; Scenario.B; Scenario.C; Scenario.other; Scenario.G]
  = Some [("S", [Scenario.A; Scenario.B; Scenario.G]); ("T", [Scenario.C])].
Proof. reflexivity. Qed.

(** The end-to-end scenario of the specification: ctrl alone resolves to
    [Intersect]; the owner of [S] is called once, with the one view that
    exists among those of [A] and [B]; the owner of [T] is called once;
    one event is published. *)
Example end_to_end :
  _select_mode Scenario.view {| event_type := "tap"; shiftKey := false; ctrlKey := true |}
  = Return Intersect
  ∧ calls (_select Scenario.hit_test Scenario.view (PointGeometry 5 5)%Z true
             Intersect Scenario.world).2
    = [CallSelect {| source := "S" |} ["view of A"] (PointGeometry 5 5)%Z true Intersect;
       CallSelect {| source := "T" |} ["view of C"] (PointGeometry 5 5)%Z true Intersect;
       CallTriggerEvent
         {| event_geometry := PointData 5 5 (invert Scenario.bins 5) (invert Scenario.linear 5);
            event_final := true |}]%Z.
Proof. split; vm_compute; reflexivity. Qed.

(** With a callback and numeric identities: the groups are visited in
    the order of the enumeration, the callback comes after the updates
    and before the event. *)
Example callback_order :
  calls (_select Scenario.hit_test Scenario.view_with_callback
           (RectGeometry 50 10 0 0)%Z false Subtract Scenario.world).2
  = [CallSelect {| source := "7" |} [] (RectGeometry 50 10 0 0)%Z false Subtract;
     CallSelect {| source := "1002" |} [] (RectGeometry 50 10 0 0)%Z false Subtract;
     CallSelect {| source := "S" |} ["view of A"] (RectGeometry 50 10 0 0)%Z false Subtract;
     CallEmitCallback (RectGeometry 50 10 0 0)%Z;
     CallTriggerEvent
       {| event_geometry := RectData 50 10 0 0 0 (-100) 3 (-100);
          event_final := false |}]%Z.
Proof. vm_compute. reflexivity. Qed.

(** On the scale of bins the range inversion of [(50, 10)] is not the
    pair of the scalar inversions, and the rectangle follows the range
    inversion. *)
Example rect_range_inversion :
  (r_invert Scenario.bins 50 10 ≠ (invert Scenario.bins 50, invert Scenario.bins 10)
   ∧ geometry_data Scenario.bins Scenario.linear (RectGeometry 50 10 0 0)
     = RectData 50 10 0 0 0 (-100) 3 (-100)
   ∧ rect_by_scalar_inversion Scenario.bins Scenario.linear 50 10 0 0
     = RectData 50 10 0 0 2 (-100) 0 (-100))%Z.
Proof. split; [|split]; vm_compute; congruence. Qed.

(** No renderer resolves to a data source: no [select] call, one
    event. *)
Example no_group :
  calls (_select Scenario.hit_test Scenario.view_without_source (PointGeometry 5 5)%Z
           true Replace Scenario.world).2
  = [CallTriggerEvent
       {| event_geometry := PointData 5 5 0 (-95); event_final := true |}]%Z.
Proof. vm_compute. reflexivity. Qed.

(** C5, the claim as stated fails: with the toolbar listening to the
    clear signal, an Escape key event returns without notifying it,
    while firing the signal notifies it; the key event is not a firing
    of the signal. *)
Lemma escape_bypasses_signal :
  (∃ w1 w2,
     _keyup 27 Scenario.view Scenario.escape Scenario.world = (Return tt, w1)
     ∧ clear_emit Scenario.world = (Return tt, w2)
     ∧ List.filter is_notified (calls w1) = []
     ∧ List.filter is_notified (calls w2) = [CallListener "toolbar"])
  ∧ _keyup 27 Scenario.view Scenario.escape Scenario.world ≠ clear_emit Scenario.world.
Proof.
  assert (_keyup 27 Scenario.view Scenario.escape Scenario.world
          = _clear Scenario.view Scenario.world) as Hk by reflexivity.
  assert (clear_emit Scenario.world
          = bind (_clear Scenario.view)
              (λ _, bind (log (CallListener "toolbar")) (λ _, ret tt)) Scenario.world)
    as He by reflexivity.
  rewrite Hk, He. unfold bind. rewrite !clear_run. unfold log, ret.
  split.
  - eexists _, _. split; [reflexivity|]. split; [reflexivity|].
    split; reflexivity.
  - intros H. apply (f_equal (λ x, length (calls x.2))) in H.
    simpl in H. discriminate H.
Qed.


(** X13 on the plot of the examples: its view and the view of the same
    renderers in the reverse order. *)
Lemma clear_order_independent_witness :
  ∃ w1 w2,
    _clear Scenario.view Scenario.world = (Return tt, w1)
    ∧ _clear Reordered.view Scenario.world = (Return tt, w2)
    ∧ selected w1 = selected w2
    ∧ render_requests w1 = render_requests w2.
Proof.
  apply (clear_order_independent Scenario.view Reordered.view Scenario.world).
  symmetry.
  apply (reverse_Permutation [Scenario.A; Scenario.B; Scenario.C; Scenario.other]).
Defined.

(** The grouping loop on a data source named "toString": the test of
    line 43 finds the name in the empty object, no array is created and
    the [push] of line 46 throws. *)
Example group_step_inherited :
  Js.has "toString" (@nil (string * list DataRenderer)) = true
  ∧ group_step [] Inherited.renderer = None
  ∧ group_by_data_source [Scenario.A; Inherited.renderer] = None
  ∧ group_by_data_source [Scenario.A]
    = Some [("S", [Scenario.A])].
Proof. repeat split. Qed.

(** C3, the code at the failing input: with a glyph renderer whose data
    source has the identity "toString" among the computed renderers,
    the renderer resolves to that identity and
    [_computed_renderers_by_data_source] throws a [TypeError] instead
    of returning a grouping. *)
Theorem grouping_throws_on_inherited_id (w : @World Z string unit) :
  Renderer.source_id Inherited.renderer = Some "toString"
  ∧ Inherited.renderer ∈ computed_renderers Inherited.view
  ∧ _computed_renderers_by_data_source Inherited.view w = (Throw TypeError, w).
Proof.
  split; [done|]. split; [by right; left|].
  by destruct (select_throws Scenario.hit_test Inherited.view
                 (PolyGeometry [] []) true Replace w eq_refl) as (_ & ? & _).
Qed.

(** C8, the code at the failing input: with a data source of identity
    "toString" among the computed renderers, [_select] throws before
    any call; with a callback configured the callback hook is not
    triggered, and with none configured the event is not published. *)
Theorem callback_skipped_on_inherited_id (geometry : @Geometry Z) (final : bool)
    (mode : SelectionMode) (w : @World Z string unit) :
  callback (model Inherited.view_with_callback) = Some tt
  ∧ _select Scenario.hit_test Inherited.view_with_callback geometry final mode w
    = (Throw TypeError, w)
  ∧ callback (model Inherited.view) = None
  ∧ _select Scenario.hit_test Inherited.view geometry final mode w
    = (Throw TypeError, w).
Proof.
  split; [done|]. split.
  - by destruct (select_throws Scenario.hit_test Inherited.view_with_callback
                   geometry final mode w eq_refl) as (_ & _ & ?).
  - split; [done|].
    by destruct (select_throws Scenario.hit_test Inherited.view
                   geometry final mode w eq_refl) as (_ & _ & ?).
Qed.

(** C10, the code at the failing input: with a data source of identity
    "toString" among the computed renderers, a call of [_select] throws
    a [TypeError] and leaves the log of calls as it was: no selection
    event is published. *)
Theorem select_publishes_nothing_on_inherited_id (geometry : @Geometry Z)
    (final : bool) (mode : SelectionMode) (w : @World Z string unit) :
  ∃ w',
    _select Scenario.hit_test Inherited.view geometry final mode w
      = (Throw TypeError, w')
    ∧ calls w' = calls w
    ∧ List.filter is_trigger (calls w') = List.filter is_trigger (calls w).
Proof.
  exists w.
  by destruct (select_throws Scenario.hit_test Inherited.view
                 geometry final mode w eq_refl) as (_ & _ & ?).
Qed.

